(** * Overlay/alert coordination of the admin console

  A shallow embedding of
  - [src/components/admin/OrderEmailPreviewOverlay.tsx]
    ([EmailPreviewButton], [EmailPreviewOverlay] with its scroll-lock
    effect, [closeAlert], [handleSendEmail], [renderEmailTemplate],
    [renderSendButton]) and
  - [getOrderById] of the order details page,
  together with the overlay registry ([@/zustand/admin/overlayStore]) the
  components talk to. *)

From Stdlib Require Import Ascii.
From stdpp Require Import gmap strings list pretty.

Local Open Scope string_scope.
Local Open Scope Z_scope.

(** ** Shared types ([@/lib/sharedTypes])

  The declarations are imported by the component; the members below are
  the ones the component names. Each [Record<EmailType, string>] table of
  the component lists exactly these three keys. *)

Inductive EmailType := ORDER_CONFIRMED | ORDER_SHIPPED | ORDER_DELIVERED.

Inductive AlertMessageType := NEUTRAL | SUCCESS | ERROR.

#[global] Instance EmailType_eq_dec : EqDecision EmailType.
Proof. solve_decision. Defined.

#[global] Instance AlertMessageType_eq_dec : EqDecision AlertMessageType.
Proof. solve_decision. Defined.

(** ** The overlay registry *)

Module OverlayStore.

Record Overlay := mkOverlay { overlay_name : string; isVisible : bool }.

Record Page := mkPage { page_name : string; overlays : gmap string Overlay }.

Record State := mkState { pages : gmap string Page }.

(** Modelled from the spec: the registry's [showOverlay] lives in
    [@/zustand/admin/overlayStore], which is not among the sources. It
    sets the identified overlay's visibility flag; a page or overlay name
    that the static map does not define is a programming error and fails
    fast ([None]). *)
Definition setVisibility (v : bool) (pageName overlayName : string)
    (st : State) : option State :=
  page ← pages st !! pageName;
  overlay ← overlays page !! overlayName;
  Some (mkState
          (<[pageName :=
               mkPage (page_name page)
                 (<[overlayName := mkOverlay (overlay_name overlay) v]>
                    (overlays page))]> (pages st))).

(** Modelled from the spec: [showOverlay(pageName, overlayName)] of the
    absent registry module sets the identified flag true. *)
Definition showOverlay (pageName overlayName : string) (st : State)
    : option State :=
  setVisibility true pageName overlayName st.

(** Modelled from the spec: [hideOverlay(pageName, overlayName)] of the
    absent registry module sets the identified flag false. *)
Definition hideOverlay (pageName overlayName : string) (st : State)
    : option State :=
  setVisibility false pageName overlayName st.

(** Read access to a flag, [pages[pageName].overlays[overlayName].isVisible];
    indexing an undefined entry is a [TypeError] ([None]). *)
Definition readVisible (pageName overlayName : string) (st : State)
    : option bool :=
  page ← pages st !! pageName;
  overlay ← overlays page !! overlayName;
  Some (isVisible overlay).

(** A (page name, overlay name) pair is defined in a map. *)
Definition defined (pageName overlayName : string) (st : State) : Prop :=
  is_Some (readVisible pageName overlayName st).

(** Modelled from the spec: the static page/overlay map of the absent
    registry module, restricted to the entries the component reads
    ([pages.orderDetails] and the three email previews); every overlay
    starts hidden and every entry's name is its key. *)
Definition initialState : State :=
  mkState
    {[ "orderDetails" :=
         mkPage "orderDetails"
           {[ "orderConfirmedEmailPreview" :=
                mkOverlay "orderConfirmedEmailPreview" false;
              "orderShippedEmailPreview" :=
                mkOverlay "orderShippedEmailPreview" false;
              "orderDeliveredEmailPreview" :=
                mkOverlay "orderDeliveredEmailPreview" false ]} ]}.

End OverlayStore.

(** ** The email preview component: tables *)

Definition overlayNameKeys (emailType : EmailType) : string :=
  match emailType with
  | ORDER_CONFIRMED => "orderConfirmedEmailPreview"
  | ORDER_SHIPPED => "orderShippedEmailPreview"
  | ORDER_DELIVERED => "orderDeliveredEmailPreview"
  end.

Definition emailLabels (emailType : EmailType) : string :=
  match emailType with
  | ORDER_CONFIRMED => "Confirmed"
  | ORDER_SHIPPED => "Shipped"
  | ORDER_DELIVERED => "Delivered"
  end.

Definition emailSubjects (emailType : EmailType) : string :=
  match emailType with
  | ORDER_CONFIRMED => "Your Order's Confirmed"
  | ORDER_SHIPPED => "Your Order Has Been Shipped"
  | ORDER_DELIVERED => "Your Order Has Been Delivered"
  end.

Definition overlayTitles (emailType : EmailType) : string :=
  match emailType with
  | ORDER_CONFIRMED => "Order confirmed"
  | ORDER_SHIPPED => "Order shipped"
  | ORDER_DELIVERED => "Order delivered"
  end.

(** ** Component state *)

(** The [alert] state object of [EmailPreviewOverlay]. *)
Record Alert := mkAlert {
  message : string;
  isVisible : bool;
  type : AlertMessageType
}.

(** The JSON body of the send request, before [JSON.stringify]. *)
Record EmailRequestBody := mkBody {
  customerEmail : string;
  emailSubject : string;
  emailType : EmailType
}.

(** The arguments of the [fetch] call. *)
Record Request := mkRequest {
  url : string;
  method : string;
  headers : list (string * string);
  body : EmailRequestBody
}.

(** How the awaited [fetch] settles: a response with its status code, or a
    rejection (transport error) carrying the error's message. *)
Inductive FetchOutcome :=
| Responded (status : Z)
| Rejected (error : string).

(** [response.ok] of the Fetch standard: the status is in 200..299. *)
Definition ok (status : Z) : bool := (200 <=? status) && (status <=? 299).

(** One mounted [EmailPreviewOverlay]: its prop, its two [useState] cells,
    the dependency values [(isOverlayVisible, alert.isVisible)] captured by
    the closure of the effect (and cleanup) registered last, and the [fetch]
    promises of [handleSendEmail] that have not settled yet. *)
Record Instance := mkInstance {
  prop_emailType : EmailType;
  isLoading : bool;
  alert : Alert;
  effectDeps : bool * bool;
  pending : list Request
}.

Definition setIsLoading (b : bool) (c : Instance) : Instance :=
  mkInstance (prop_emailType c) b (alert c) (effectDeps c) (pending c).

Definition setAlert (a : Alert) (c : Instance) : Instance :=
  mkInstance (prop_emailType c) (isLoading c) a (effectDeps c) (pending c).

Definition setEffectDeps (d : bool * bool) (c : Instance) : Instance :=
  mkInstance (prop_emailType c) (isLoading c) (alert c) d (pending c).

Definition setPending (p : list Request) (c : Instance) : Instance :=
  mkInstance (prop_emailType c) (isLoading c) (alert c) (effectDeps c) p.

(** The initial [useState] values. *)
Definition initialAlert : Alert := mkAlert "" false NEUTRAL.

(** ** What a render reads from the registry (lines 41-45 and 73-80) *)

Definition pageName (st : OverlayStore.State) : option string :=
  page ← OverlayStore.pages st !! "orderDetails";
  Some (OverlayStore.page_name page).

Definition overlayName (st : OverlayStore.State) (emailType : EmailType)
    : option string :=
  page ← OverlayStore.pages st !! "orderDetails";
  overlay ← OverlayStore.overlays page !! overlayNameKeys emailType;
  Some (OverlayStore.overlay_name overlay).

Definition isOverlayVisible (st : OverlayStore.State) (emailType : EmailType)
    : option bool :=
  page ← OverlayStore.pages st !! "orderDetails";
  overlay ← OverlayStore.overlays page !! overlayNameKeys emailType;
  Some (OverlayStore.isVisible overlay).

(** [onClick] of [EmailPreviewButton]. *)
Definition EmailPreviewButton_onClick (emailType : EmailType)
    (st : OverlayStore.State) : option OverlayStore.State :=
  p ← pageName st;
  o ← overlayName st emailType;
  OverlayStore.showOverlay p o st.

(** [onClick] of the overlay's back button (line 175). *)
Definition backButton_onClick (emailType : EmailType)
    (st : OverlayStore.State) : option OverlayStore.State :=
  p ← pageName st;
  o ← overlayName st emailType;
  OverlayStore.hideOverlay p o st.

(** ** The scroll-lock effect (lines 82-90) *)

(** The effect body: the value it writes to [document.body.style.overflow]. *)
Definition scrollLock_effect (deps : bool * bool) : string :=
  if fst deps || snd deps then "hidden" else "visible".

(** The cleanup the effect returns; [deps] are the values its closure
    captured, [overflow] is the current [document.body.style.overflow]. *)
Definition scrollLock_cleanup (deps : bool * bool) (overflow : string)
    : string :=
  if negb (fst deps) && negb (snd deps) then "visible" else overflow.

(** ** Alert dismissal and the send action (lines 92-125) *)

Definition closeAlert (a : Alert) : Alert := mkAlert "" false (type a).

Definition sendRequest (emailType : EmailType) : Request :=
  mkRequest "/api/order-emails" "POST"
    [("Content-Type", "application/json")]
    (mkBody "khanofemperia@gmail.com" (emailSubjects emailType) emailType).

(** [handleSendEmail] up to its [await]: the busy flag is set and the
    request is issued. *)
Definition handleSendEmail_start (c : Instance) : Instance :=
  setPending (pending c ++ [sendRequest (prop_emailType c)])%list
    (setIsLoading true c).

(** The [try] block after the [await]: [inl] is a thrown error (its
    message), [inr] the state after [setAlert]. *)
Definition handleSendEmail_try (outcome : FetchOutcome) (c : Instance)
    : string + Instance :=
  match outcome with
  | Rejected error => inl error
  | Responded status =>
      if negb (ok status) then inl "Failed to send email"
      else inr (setAlert (mkAlert "Email sent successfully!" true SUCCESS) c)
  end.

(** [handleSendEmail] from the point its [fetch] settles: [try], [catch]
    (which logs to the console), [finally]. *)
Definition handleSendEmail_settle (outcome : FetchOutcome)
    (c : Instance) (console : list string) : Instance * list string :=
  let '(c1, console1) :=
    match handleSendEmail_try outcome c with
    | inr c' => (c', console)
    | inl error =>
        (setAlert (mkAlert "Failed to send email" true ERROR) c,
         (console ++ [error])%list)
    end in
  (setIsLoading false (setPending (tail (pending c1)) c1), console1).

(** A whole call of [handleSendEmail] whose [fetch] settles with
    [outcome]. *)
Definition handleSendEmail (outcome : FetchOutcome)
    (c : Instance) (console : list string) : Instance * list string :=
  handleSendEmail_settle outcome (handleSendEmail_start c) console.

(** ** Templates (lines 127-138) *)

Inductive Template :=
| OrderConfirmedTemplate
| OrderShippedTemplate
| OrderDeliveredTemplate.

(** The [switch]; its [default] branch returns [null] ([None]). *)
Definition renderEmailTemplate (emailType : EmailType) : option Template :=
  if decide (emailType = ORDER_CONFIRMED) then Some OrderConfirmedTemplate
  else if decide (emailType = ORDER_SHIPPED) then Some OrderShippedTemplate
  else if decide (emailType = ORDER_DELIVERED) then Some OrderDeliveredTemplate
  else None.

(** The [disabled] attribute [renderSendButton] puts on its button. *)
Definition renderSendButton_disabled (c : Instance) : bool := isLoading c.

(** ** The page at run time *)

(** The registry, the mounted [EmailPreviewOverlay] instances in tree
    order, [document.body.style.overflow], and what [console.error] has
    received. *)
Record World := mkWorld {
  store : OverlayStore.State;
  instances : list Instance;
  overflow : string;
  console : list string
}.

(** The effect dependencies a render of an instance computes. *)
Definition renderDeps (st : OverlayStore.State) (c : Instance)
    : option (bool * bool) :=
  v ← isOverlayVisible st (prop_emailType c);
  Some (v, isVisible (alert c)).

(** React re-runs an effect when one of its dependencies changed: the
    cleanup registered by the previous run goes first, with the values that
    run captured. *)
Definition runCleanup (o : string) (cd : Instance * (bool * bool)) : string :=
  if decide (effectDeps cd.1 = cd.2) then o
  else scrollLock_cleanup (effectDeps cd.1) o.

Definition runEffect (o : string) (cd : Instance * (bool * bool)) : string :=
  if decide (effectDeps cd.1 = cd.2) then o else scrollLock_effect cd.2.

(** A commit after a state change: every instance re-renders; the cleanups
    of all effects whose dependencies changed run, then those effects run
    and register their new cleanups. *)
Definition commit (w : World) : option World :=
  deps ← mapM (renderDeps (store w)) (instances w);
  let work := zip (instances w) deps in
  Some (mkWorld (store w)
          ((λ cd : Instance * (bool * bool), setEffectDeps cd.2 cd.1) <$> work)
          (foldl runEffect (foldl runCleanup (overflow w) work) work)
          (console w)).

(** What can happen on the page. [ClickSend], [Settle] and [CloseAlert]
    name an instance by its position. *)
Inductive Event :=
| Show (e : EmailType)
| Hide (e : EmailType)
| ClickSend (i : nat)
| Settle (i : nat) (outcome : FetchOutcome)
| CloseAlert (i : nat).

(** One event and the commit that follows it. The send button exists only
    inside the visible overlay and does not fire while [disabled]; a
    [Settle] needs a promise that is still pending. *)
Definition step (ev : Event) (w : World) : option World :=
  match ev with
  | Show e =>
      st ← EmailPreviewButton_onClick e (store w);
      commit (mkWorld st (instances w) (overflow w) (console w))
  | Hide e =>
      st ← backButton_onClick e (store w);
      commit (mkWorld st (instances w) (overflow w) (console w))
  | ClickSend i =>
      match instances w !! i with
      | None => Some w
      | Some c =>
          v ← isOverlayVisible (store w) (prop_emailType c);
          if v && negb (renderSendButton_disabled c) then
            commit (mkWorld (store w)
                      (<[i := handleSendEmail_start c]> (instances w))
                      (overflow w) (console w))
          else Some w
      end
  | Settle i outcome =>
      match instances w !! i with
      | None => Some w
      | Some c =>
          match pending c with
          | [] => Some w
          | _ :: _ =>
              let '(c', console') :=
                handleSendEmail_settle outcome c (console w) in
              commit (mkWorld (store w) (<[i := c']> (instances w))
                        (overflow w) console')
          end
      end
  | CloseAlert i =>
      match instances w !! i with
      | None => Some w
      | Some c =>
          commit (mkWorld (store w)
                    (<[i := setAlert (closeAlert (alert c)) c]> (instances w))
                    (overflow w) (console w))
      end
  end.

Fixpoint run (evs : list Event) (w : World) : option World :=
  match evs with
  | [] => Some w
  | ev :: evs' => w' ← step ev w; run evs' w'
  end.

(** Mounting the overlays of a page: every instance starts with the
    initial [useState] values and runs its effect once, in tree order;
    [overflow0] is the style the document had before. *)
Definition mountInstance (st : OverlayStore.State) (e : EmailType)
    : option Instance :=
  v ← isOverlayVisible st e;
  Some (mkInstance e false initialAlert (v, false) []).

Definition mount (st : OverlayStore.State) (emailTypes : list EmailType)
    (overflow0 : string) : option World :=
  cs ← mapM (mountInstance st) emailTypes;
  Some (mkWorld st cs
          (foldl (λ _ c, scrollLock_effect (effectDeps c)) overflow0 cs) []).

(** Tearing an instance down: React runs the cleanup registered last and
    drops the instance with its state. *)
Definition unmount (i : nat) (w : World) : World :=
  match instances w !! i with
  | None => w
  | Some c =>
      mkWorld (store w) (delete i (instances w))
        (scrollLock_cleanup (effectDeps c) (overflow w)) (console w)
  end.

(** The visibility condition of the scroll lock. *)
Definition anyVisible (deps : bool * bool) : bool := fst deps || snd deps.

(** The registry defines what the component indexes: the page
    [orderDetails] and, under each key of [overlayNameKeys], an overlay;
    each entry is named by its key. *)
Definition wellFormed (st : OverlayStore.State) : Prop :=
  ∃ page,
    OverlayStore.pages st !! "orderDetails" = Some page
    ∧ OverlayStore.page_name page = "orderDetails"
    ∧ ∀ e, ∃ overlay,
        OverlayStore.overlays page !! overlayNameKeys e = Some overlay
        ∧ OverlayStore.overlay_name overlay = overlayNameKeys e.

(** The flag an instance reads, and the dependencies its render computes,
    on a registry that defines them. *)
Definition overlayFlag (st : OverlayStore.State) (e : EmailType) : bool :=
  default false (isOverlayVisible st e).

Definition depsOf (st : OverlayStore.State) (c : Instance) : bool * bool :=
  (overlayFlag st (prop_emailType c), isVisible (alert c)).

(** An instance whose effect has re-run against the registry [st]. *)
Definition sync (st : OverlayStore.State) (c : Instance) : Instance :=
  setEffectDeps (depsOf st c) c.

(** Invariants of a page: every registered effect has captured the values
    of the latest render; an instance holds one pending request exactly
    while its busy flag is set; and the overflow style is the one written
    by the effect of some mounted instance. *)
Definition inSync (w : World) : Prop :=
  Forall (λ c, effectDeps c = depsOf (store w) c) (instances w).

Definition busyIffPending (c : Instance) : Prop :=
  pending c = if isLoading c then [sendRequest (prop_emailType c)] else [].

Definition lastWriter (w : World) : Prop :=
  instances w = []
  ∨ ∃ d, d ∈ effectDeps <$> instances w ∧ overflow w = scrollLock_effect d.

Definition pageInvariant (w : World) : Prop :=
  wellFormed (store w) ∧ inSync w ∧ Forall busyIffPending (instances w)
  ∧ lastWriter w.

(** The two phases of the send control of an instance. *)
Inductive Phase := Idle | Submitting.

Definition phase (c : Instance) : Phase :=
  if isLoading c then Submitting else Idle.

(** What an event does to the instance at position [i] before the commit
    that follows it. *)
Definition instanceAfter (ev : Event) (st : OverlayStore.State) (i : nat)
    (c : Instance) : Instance :=
  match ev with
  | Show _ | Hide _ => c
  | ClickSend j =>
      if decide (j = i) then
        if overlayFlag st (prop_emailType c) && negb (renderSendButton_disabled c)
        then handleSendEmail_start c else c
      else c
  | Settle j outcome =>
      if decide (j = i) then
        match pending c with
        | [] => c
        | _ :: _ => (handleSendEmail_settle outcome c []).1
        end
      else c
  | CloseAlert j =>
      if decide (j = i) then setAlert (closeAlert (alert c)) c else c
  end.

(** The instance an event addresses, if any. *)
Definition eventTarget (ev : Event) : option nat :=
  match ev with
  | Show _ | Hide _ => None
  | ClickSend i | Settle i _ | CloseAlert i => Some i
  end.

(** The alerts the component ever builds: the initial one, the two that
    [handleSendEmail] sets, and those two dismissed. *)
Definition builtAlert (a : Alert) : Prop :=
  a = initialAlert
  ∨ a = mkAlert "Email sent successfully!" true SUCCESS
  ∨ a = mkAlert "Failed to send email" true ERROR
  ∨ a = mkAlert "" false SUCCESS
  ∨ a = mkAlert "" false ERROR.

(** The text [console.error] receives when a send fails. *)
Definition loggedError (outcome : FetchOutcome) : option string :=
  match outcome with
  | Rejected error => Some error
  | Responded status =>
      if ok status then None else Some "Failed to send email"
  end.

(** ** Order lookup ([getOrderById] of the order details page) *)

(** Field values of a document. *)
#[local] Unset Elimination Schemes.

Inductive JsValue :=
| JsNull
| JsBool (b : bool)
| JsNumber (n : Z)
| JsString (s : string)
| JsArray (items : list JsValue)
| JsObject (fields : list (string * JsValue)).

#[local] Set Elimination Schemes.

(** A settled promise: resolved with a value or rejected with an error. *)
Inductive Outcome (A : Type) :=
| Resolved (a : A)
| Threw (error : string).

Arguments Resolved {A} a.
Arguments Threw {A} error.

(** The document database as the function sees it: what reading the
    document at a path (its segments) gives, the document's fields or
    nothing when no document is there, or the error the read is rejected
    with. *)
Record Firestore := mkFirestore {
  readDocument : list string → Outcome (option (gmap string JsValue))
}.

(** A reachable database holding the documents given, keyed by path; and
    a database that rejects every read. *)
Definition Online (documents : gmap (list string) (gmap string JsValue))
    : Firestore :=
  mkFirestore (λ path, Resolved (documents !! path)).

Definition Unreachable (error : string) : Firestore :=
  mkFirestore (λ _, Threw error).

(** A document snapshot: [id], and the data when the document exists. *)
Record Snapshot := mkSnapshot {
  snapshot_id : string;
  snapshot_data : option (gmap string JsValue)
}.

Definition snapshot_exists (s : Snapshot) : bool :=
  match snapshot_data s with Some _ => true | None => false end.

(** [snapshot.data()]; spreading the [undefined] of a missing document
    adds no property. *)
Definition snapshot_fields (s : Snapshot) : gmap string JsValue :=
  default ∅ (snapshot_data s).

(** [s.split("/")]. *)
Fixpoint split (s : string) : list string :=
  match s with
  | EmptyString => [EmptyString]
  | String c rest =>
      if Ascii.eqb c "/"%char then EmptyString :: split rest
      else
        match split rest with
        | [] => [String c EmptyString]
        | segment :: segments => String c segment :: segments
        end
  end.

(** [s.indexOf("//") >= 0] and [s.indexOf("/") >= 0]. *)
Fixpoint hasDoubleSlash (s : string) : bool :=
  match s with
  | EmptyString => false
  | String c rest =>
      match rest with
      | String c' _ =>
          (Ascii.eqb c "/"%char && Ascii.eqb c' "/"%char) || hasDoubleSlash rest
      | EmptyString => false
      end
  end.

Fixpoint hasSlash (s : string) : bool :=
  match s with
  | EmptyString => false
  | String c rest => Ascii.eqb c "/"%char || hasSlash rest
  end.

(** [ResourcePath.fromString(...pathComponents)] of the Firestore client:
    a component containing [//] is refused; the others are split at the
    slashes and their empty segments dropped. *)
Fixpoint fromString (pathComponents : list string) : Outcome (list string) :=
  match pathComponents with
  | [] => Resolved []
  | path :: rest =>
      if hasDoubleSlash path then
        Threw ("Invalid segment (" ++ path
               ++ "). Paths must not contain // in them.")
      else
        match fromString rest with
        | Threw error => Threw error
        | Resolved segments =>
            Resolved (filter (λ segment, segment ≠ "") (split path)
                      ++ segments)%list
        end
  end.

(** [doc(database, path, ...pathSegments)]: the reference is the list of
    segments; a document reference needs an even number of them. *)
Definition doc (path : string) (pathSegments : list string)
    : Outcome (list string) :=
  if decide (path = "") then
    Threw "Function doc() cannot be called with an empty path."
  else
    match fromString (path :: pathSegments) with
    | Threw error => Threw error
    | Resolved segments =>
        if Nat.even (length segments) then Resolved segments
        else
          Threw ("Invalid document reference. Document references must "
                 ++ "have an even number of segments, but "
                 ++ String.concat "/" segments ++ " has "
                 ++ pretty (length segments) ++ ".")
    end.

(** [getDoc(documentRef)]: the snapshot's [id] is the last segment of the
    reference. *)
Definition getDoc (database : Firestore) (documentRef : list string)
    : Outcome Snapshot :=
  match readDocument database documentRef with
  | Threw error => Threw error
  | Resolved data => Resolved (mkSnapshot (default "" (last documentRef)) data)
  end.

(** [{ id: snapshot.id, ...snapshot.data() }]: the spread comes second, so
    a field of the data replaces an earlier property of the same name. *)
Definition orderOfSnapshot (id : string) (data : gmap string JsValue)
    : gmap string JsValue :=
  data ∪ {[ "id" := JsString id ]}.

Definition getOrderById (database : Firestore) (id : string)
    : Outcome (option (gmap string JsValue)) :=
  if decide (id = "") then Resolved None
  else
    match doc "orders" [id] with
    | Threw error => Threw error
    | Resolved documentRef =>
        match getDoc database documentRef with
        | Threw error => Threw error
        | Resolved snapshot =>
            if negb (snapshot_exists snapshot) then Resolved None
            else
              Resolved
                (Some (orderOfSnapshot (snapshot_id snapshot)
                         (snapshot_fields snapshot)))
        end
    end.

(** ** The admin navigation bar ([src/components/admin/Navbar.tsx]) *)

Module Navbar.

(** The handlers one run of the effect creates, [handleClickOutside] and
    [handleScroll]: function objects are told apart by the run that made
    them, and [handleScroll] has captured that render's
    [isMenuDropdownVisible]. *)
Record Closure := mkClosure { closure_id : nat; seesVisible : bool }.

#[global] Instance Closure_eq_dec : EqDecision Closure.
Proof. solve_decision. Defined.

(** The component's state, whether [menuRef.current] is attached, the
    [mousedown] listeners of [document] and the capturing [scroll]
    listeners of [window], the handlers the registered cleanup will
    remove, and the identity of the next function object. *)
Record World := mkWorld {
  isMenuDropdownVisible : bool;
  menuRef : bool;
  mousedown : list Closure;
  scroll : list Closure;
  registered : option Closure;
  nextClosure : nat
}.

(** [addEventListener] ignores a listener that is registered already;
    [removeEventListener] drops the listener given. *)
Definition addEventListener (l : list Closure) (h : Closure) : list Closure :=
  if decide (h ∈ l) then l else l ++ [h].

Definition removeEventListener (l : list Closure) (h : Closure)
    : list Closure :=
  filter (λ x, x ≠ h) l.

(** The handlers, as updates of the pending state. [inside] is
    [menuRef.current.contains(event.target)]. *)
Definition handleClickOutside (ref inside : bool) (v : bool) : bool :=
  if ref && negb inside then false else v.

Definition handleScroll (h : Closure) (v : bool) : bool :=
  if seesVisible h then false else v.

(** [toggleMenuDropdown] of the render that saw [rendered]. *)
Definition toggleMenuDropdown (rendered : bool) : bool := negb rendered.

(** The effect body and the cleanup it returns (lines 12-32). *)
Definition runEffect (w : World) : World :=
  let h := mkClosure (nextClosure w) (isMenuDropdownVisible w) in
  mkWorld (isMenuDropdownVisible w) (menuRef w)
    (addEventListener (mousedown w) h) (addEventListener (scroll w) h)
    (Some h) (S (nextClosure w)).

Definition runCleanup (w : World) : World :=
  match registered w with
  | None => w
  | Some h =>
      mkWorld (isMenuDropdownVisible w) (menuRef w)
        (removeEventListener (mousedown w) h)
        (removeEventListener (scroll w) h) None (nextClosure w)
  end.

(** After a render the effect re-runs when its dependency
    [isMenuDropdownVisible] differs from the one of its last run. *)
Definition commit (w : World) : World :=
  match registered w with
  | None => runEffect w
  | Some h =>
      if decide (seesVisible h = isMenuDropdownVisible w) then w
      else runEffect (runCleanup w)
  end.

Inductive Event :=
| MouseDown (inside : bool)
| Scroll
| ClickToggle.

(** The state after the listeners (or the button's [onClick]) have run. *)
Definition dispatch (ev : Event) (w : World) : bool :=
  match ev with
  | MouseDown inside =>
      foldl (λ v _, handleClickOutside (menuRef w) inside v)
        (isMenuDropdownVisible w) (mousedown w)
  | Scroll => foldl (λ v h, handleScroll h v) (isMenuDropdownVisible w) (scroll w)
  | ClickToggle => toggleMenuDropdown (isMenuDropdownVisible w)
  end.

Definition step (ev : Event) (w : World) : World :=
  commit (mkWorld (dispatch ev w) (menuRef w) (mousedown w) (scroll w)
            (registered w) (nextClosure w)).

Fixpoint run (evs : list Event) (w : World) : World :=
  match evs with
  | [] => w
  | ev :: evs' => run evs' (step ev w)
  end.

(** The first render ([useState(false)], the ref attached) and its effect. *)
Definition mount : World := commit (mkWorld false true [] [] None 0).

(** Teardown: the registered cleanup runs and the ref is detached. *)
Definition unmount (w : World) : World :=
  let w' := runCleanup w in
  mkWorld (isMenuDropdownVisible w') false (mousedown w') (scroll w')
    (registered w') (nextClosure w').

(** What the menu should do, said without listeners: the button toggles,
    a scroll or a press outside the menu closes, a press inside changes
    nothing. *)
Definition dropdownAfter (v : bool) (ev : Event) : bool :=
  match ev with
  | MouseDown inside => if inside then v else false
  | Scroll => false
  | ClickToggle => negb v
  end.

(** The listeners are the ones of the latest effect run, one of each
    kind, and [handleScroll] has captured the current state. *)
Definition tidy (w : World) : Prop :=
  menuRef w = true
  ∧ ∃ h, registered w = Some h ∧ mousedown w = [h] ∧ scroll w = [h]
         ∧ seesVisible h = isMenuDropdownVisible w.

End Navbar.

(** ** The order details page ([OrderDetails]) *)

Module OrderDetailsPage.

(** The parts of the payment provider's order the page reads. *)
Record Capture := mkCapture { capture_id : string; create_time : string }.

Record ShippingAddress := mkShippingAddress {
  address_line_1 : string;
  address_line_2 : string;
  admin_area_2 : string;
  admin_area_1 : string;
  postal_code : string;
  country_code : string
}.

Record PurchaseUnit := mkPurchaseUnit {
  amount_value : string;
  shipping_address : ShippingAddress;
  captures : list Capture
}.

Record Payer := mkPayer {
  given_name : string;
  surname : string;
  email_address : string
}.

Record OrderDetailsType := mkOrderDetails {
  order_id : string;
  status : string;
  purchase_units : list PurchaseUnit;
  payer : Payer
}.

(** The provider's answer: its status code and its JSON body. *)
Record Response := mkResponse {
  response_status : Z;
  response_json : OrderDetailsType
}.

Definition PAYPAL_BASE_URL : string :=
  "https://www.sandbox.paypal.com/unifiedtransactions/details/payment/".

Definition getPayPalUrl (captureId : string) : string :=
  PAYPAL_BASE_URL ++ captureId.

(** [purchase_units[0].payments.captures[0]]; indexing past the end gives
    [undefined], and reading a property of it is a [TypeError]. *)
Definition firstCapture (order : OrderDetailsType) : Outcome Capture :=
  match purchase_units order with
  | [] => Threw "TypeError"
  | unit :: _ =>
      match captures unit with
      | [] => Threw "TypeError"
      | capture :: _ => Resolved capture
      end
  end.

(** What the page shows, field by field. *)
Record View (Items : Type) := mkView {
  view_status : string;
  view_purchased : string;
  view_total : string;
  view_shipping : list string;
  view_customer : string;
  view_email : string;
  view_captureId : string;
  view_paypalUrl : string;
  view_items : option Items
}.

Arguments mkView {Items}.
Arguments view_status {Items}.
Arguments view_purchased {Items}.
Arguments view_total {Items}.
Arguments view_shipping {Items}.
Arguments view_customer {Items}.
Arguments view_email {Items}.
Arguments view_captureId {Items}.
Arguments view_paypalUrl {Items}.
Arguments view_items {Items}.

Inductive Page (Items : Type) :=
| ErrorPage (text : string)
| DetailsPage (view : View Items).

Arguments ErrorPage {Items}.
Arguments DetailsPage {Items}.

Section Render.

(** [capitalizeFirstLetter] of [@/lib/utils]; the [Date] and locale part of
    [formatOrderPlacedDate], from a capture's [create_time] to the text
    shown or the error thrown; and the rendering of the order's items
    (lines 482-652), which reads properties that may be missing. *)
Variable capitalizeFirstLetter : string → string.
Variable formatDate : string → Outcome string.
Variable Items : Type.
Variable renderItems : gmap string JsValue → Outcome Items.

Definition formatOrderPlacedDate (order : OrderDetailsType) : Outcome string :=
  match firstCapture order with
  | Threw error => Threw error
  | Resolved capture => formatDate (create_time capture)
  end.

(** [order && order.items.map(...)]: nothing for [null]. *)
Definition itemsSection (order : option (gmap string JsValue))
    : Outcome (option Items) :=
  match order with
  | None => Resolved None
  | Some o =>
      match renderItems o with
      | Threw error => Threw error
      | Resolved items => Resolved (Some items)
      end
  end.

(** The JSX of the details, for an order whose first purchase unit is
    [unit] and whose first capture is [capture]. *)
Definition detailsView (paypalOrder : OrderDetailsType) (unit : PurchaseUnit)
    (capture : Capture) (orderPlacedDate : string) (items : option Items)
    : View Items :=
  let address := shipping_address unit in
  mkView (capitalizeFirstLetter (status paypalOrder))
    orderPlacedDate
    ("$" ++ amount_value unit)
    [address_line_1 address ++ ", " ++ address_line_2 address;
     admin_area_2 address ++ ", " ++ admin_area_1 address ++ " "
       ++ postal_code address;
     country_code address]
    (given_name (payer paypalOrder) ++ " " ++ surname (payer paypalOrder))
    (email_address (payer paypalOrder))
    (capture_id capture)
    (getPayPalUrl (capture_id capture))
    items.

(** The component: [fetched] is how the request to the payment route
    settled. The result is the page and the console afterwards. *)
Definition OrderDetails (fetched : Outcome Response) (database : Firestore)
    (console : list string) : Outcome (Page Items) * list string :=
  match fetched with
  | Threw error => (Threw error, console)
  | Resolved response =>
      if negb (ok (response_status response)) then
        (Resolved (ErrorPage "Error fetching order details"),
         (console ++ ["Failed to fetch order details"])%list)
      else
        let paypalOrder := response_json response in
        match getOrderById database (order_id paypalOrder) with
        | Threw error => (Threw error, console)
        | Resolved order =>
            match formatOrderPlacedDate paypalOrder with
            | Threw error => (Threw error, console)
            | Resolved orderPlacedDate =>
                match firstCapture paypalOrder, purchase_units paypalOrder with
                | Resolved capture, unit :: _ =>
                    match itemsSection order with
                    | Threw error => (Threw error, console)
                    | Resolved items =>
                        (Resolved
                           (DetailsPage
                              (detailsView paypalOrder unit capture
                                 orderPlacedDate items)),
                         console)
                    end
                | Threw error, _ => (Threw error, console)
                | Resolved _, [] => (Threw "TypeError", console)
                end
            end
        end
  end.

End Render.

(** The variant label under an upsell's product image (lines 634-640);
    an empty string is falsy. *)
Definition variantLabel (color size : string) : string :=
  if negb (String.eqb color "") && negb (String.eqb size "")
  then color ++ " / " ++ size
  else if negb (String.eqb color "") then color
  else if negb (String.eqb size "") then size
  else "".

(** The product names of an upsell with their separators (lines 606-615):
    each name, followed by a bullet when [index < products.length - 1]. *)
Inductive Span := Name (text : string) | Bullet.

#[global] Instance Span_eq_dec : EqDecision Span.
Proof. solve_decision. Defined.

Definition nameSpans (names : list string) : list (list Span) :=
  imap (λ index name,
          if (Z.of_nat index <? Z.of_nat (length names) - 1)
          then [Name name; Bullet] else [Name name])
    names.

(** A provider order with one purchase unit and one capture. *)
Definition exampleAddress : ShippingAddress :=
  mkShippingAddress "1 Main St" "Apt 2" "San Jose" "CA" "95131" "US".

Definition exampleCapture : Capture :=
  mkCapture "3C679366HH908993F" "2024-11-06T15:45:00Z".

Definition exampleUnit : PurchaseUnit :=
  mkPurchaseUnit "100.00" exampleAddress [exampleCapture].

Definition exampleOrder : OrderDetailsType :=
  mkOrderDetails "5O190127TN364715T" "COMPLETED" [exampleUnit]
    (mkPayer "John" "Doe" "customer@example.com").

(** The same order without a capture. *)
Definition exampleOrderNoCapture : OrderDetailsType :=
  mkOrderDetails "5O190127TN364715T" "COMPLETED"
    [mkPurchaseUnit "100.00" exampleAddress []]
    (mkPayer "John" "Doe" "customer@example.com").

(** Names with a bullet between neighbours, said by recursion. *)
Fixpoint separated (spans : list Span) : list Span :=
  match spans with
  | [] => []
  | [span] => [span]
  | span :: rest => span :: Bullet :: separated rest
  end.

End OrderDetailsPage.

(** ** Registry laws *)

Section RegistryLaws.
Import OverlayStore.

Lemma setVisibility_defined v p o st :
  defined p o st → is_Some (setVisibility v p o st).
Proof.
  unfold defined, readVisible, setVisibility.
  destruct (pages st !! p) as [page|]; simpl; [|by intros [? ?]].
  destruct (overlays page !! o) as [ov|]; simpl; [|by intros [? ?]].
  eauto.
Qed.

Lemma setVisibility_read v p o st st' :
  setVisibility v p o st = Some st' → readVisible p o st' = Some v.
Proof.
  unfold setVisibility, readVisible. intros H.
  destruct (pages st !! p) as [page|]; simpl in H; [|done].
  destruct (overlays page !! o) as [ov|]; simpl in H; [|done].
  injection H as <-. simpl.
  rewrite lookup_insert_eq. simpl. by rewrite lookup_insert_eq.
Qed.

(** Every other flag of the registry keeps its value. *)
Lemma setVisibility_read_other v p o p' o' st st' :
  setVisibility v p o st = Some st' → (p', o') ≠ (p, o) →
  readVisible p' o' st' = readVisible p' o' st.
Proof.
  unfold setVisibility, readVisible. intros H Hne.
  destruct (pages st !! p) as [page|] eqn:Hp; simpl in H; [|done].
  destruct (overlays page !! o) as [ov|] eqn:Ho; simpl in H; [|done].
  injection H as <-. simpl.
  destruct (decide (p' = p)) as [->|Hpp].
  - rewrite lookup_insert_eq, Hp. simpl.
    rewrite lookup_insert_ne; [done|]. congruence.
  - by rewrite lookup_insert_ne.
Qed.

Lemma setVisibility_preserves_defined v p o p' o' st st' :
  setVisibility v p o st = Some st' →
  defined p' o' st → defined p' o' st'.
Proof.
  intros H Hd. unfold defined.
  destruct (decide ((p', o') = (p, o))) as [[= -> ->]|Hne].
  - rewrite (setVisibility_read _ _ _ _ _ H). eauto.
  - by rewrite (setVisibility_read_other _ _ _ _ _ _ _ H Hne).
Qed.

(** Writing the value a flag already has leaves the registry as it is. *)
Lemma setVisibility_same v p o st :
  readVisible p o st = Some v → setVisibility v p o st = Some st.
Proof.
  unfold setVisibility, readVisible. intros H.
  destruct (pages st !! p) as [page|] eqn:Hp; simpl in *; [|done].
  destruct (overlays page !! o) as [ov|] eqn:Ho; simpl in *; [|done].
  injection H as <-.
  assert (mkOverlay (overlay_name ov) (isVisible ov) = ov) as ->
    by (by destruct ov).
  rewrite (insert_id (overlays page) o ov Ho).
  assert (mkPage (page_name page) (overlays page) = page) as ->
    by (by destruct page).
  rewrite (insert_id (pages st) p page Hp). by destruct st.
Qed.

Lemma setVisibility_twice v p o st st1 :
  setVisibility v p o st = Some st1 → setVisibility v p o st1 = Some st1.
Proof.
  intros H. apply setVisibility_same. by eapply setVisibility_read.
Qed.

(** C1: for every (pageName, overlayName) pair defined in the page/overlay
    map, [showOverlay] followed by a read of the flag gives [true] and
    [hideOverlay] followed by a read gives [false]; neither call fails. *)
Theorem show_hide_then_read (pageName overlayName : string) (st : State) :
  defined pageName overlayName st →
  (∃ st', showOverlay pageName overlayName st = Some st'
          ∧ readVisible pageName overlayName st' = Some true)
  ∧ (∃ st', hideOverlay pageName overlayName st = Some st'
            ∧ readVisible pageName overlayName st' = Some false).
Proof.
  intros Hd. unfold showOverlay, hideOverlay. split.
  - destruct (setVisibility_defined true _ _ _ Hd) as [st' Hst'].
    exists st'. split; [done|]. by eapply setVisibility_read.
  - destruct (setVisibility_defined false _ _ _ Hd) as [st' Hst'].
    exists st'. split; [done|]. by eapply setVisibility_read.
Qed.

Lemma show_hide_then_read_witness :
  defined "orderDetails" "orderShippedEmailPreview" initialState
  ∧ (∃ st', showOverlay "orderDetails" "orderShippedEmailPreview"
              initialState = Some st'
            ∧ readVisible "orderDetails" "orderShippedEmailPreview" st'
              = Some true)
  ∧ (∃ st', hideOverlay "orderDetails" "orderShippedEmailPreview"
              initialState = Some st'
            ∧ readVisible "orderDetails" "orderShippedEmailPreview" st'
              = Some false).
Proof.
  assert (Hd : defined "orderDetails" "orderShippedEmailPreview"
                 initialState) by (vm_compute; eauto).
  split; [exact Hd|].
  exact (show_hide_then_read "orderDetails" "orderShippedEmailPreview"
           initialState Hd).
Defined.

(** C7: [showOverlay] and [hideOverlay] are idempotent on every defined
    pair: a second [showOverlay] changes nothing and the flag reads [true];
    [hideOverlay] on an overlay that is already hidden changes nothing and
    the flag reads [false]. *)
Theorem show_hide_idempotent (pageName overlayName : string) (st : State) :
  defined pageName overlayName st →
  (∃ st1, showOverlay pageName overlayName st = Some st1
          ∧ showOverlay pageName overlayName st1 = Some st1
          ∧ readVisible pageName overlayName st1 = Some true)
  ∧ (readVisible pageName overlayName st = Some false →
     hideOverlay pageName overlayName st = Some st
     ∧ readVisible pageName overlayName st = Some false)
  ∧ (∃ st1, hideOverlay pageName overlayName st = Some st1
            ∧ hideOverlay pageName overlayName st1 = Some st1
            ∧ readVisible pageName overlayName st1 = Some false).
Proof.
  intros Hd. unfold showOverlay, hideOverlay. split; [|split].
  - destruct (setVisibility_defined true _ _ _ Hd) as [st1 H1].
    exists st1. split; [done|]. split.
    + by eapply setVisibility_twice.
    + by eapply setVisibility_read.
  - intros Hr. split; [|done]. by apply setVisibility_same.
  - destruct (setVisibility_defined false _ _ _ Hd) as [st1 H1].
    exists st1. split; [done|]. split.
    + by eapply setVisibility_twice.
    + by eapply setVisibility_read.
Qed.

Lemma show_hide_idempotent_witness :
  defined "orderDetails" "orderConfirmedEmailPreview" initialState
  ∧ hideOverlay "orderDetails" "orderConfirmedEmailPreview" initialState
    = Some initialState.
Proof.
  assert (Hd : defined "orderDetails" "orderConfirmedEmailPreview"
                 initialState) by (vm_compute; eauto).
  split; [exact Hd|].
  apply (show_hide_idempotent "orderDetails" "orderConfirmedEmailPreview"
           initialState Hd).
  reflexivity.
Defined.

End RegistryLaws.

(** ** The send action and the alert *)

Section SendAction.

Lemma ok_spec (status : Z) : ok status = true ↔ 200 ≤ status ≤ 299.
Proof. unfold ok. rewrite andb_true_iff, !Z.leb_le. lia. Qed.

Lemma handleSendEmail_settle_isLoading outcome c console :
  isLoading (handleSendEmail_settle outcome c console).1 = false.
Proof.
  unfold handleSendEmail_settle.
  by destruct (handleSendEmail_try outcome c).
Qed.

(** C2: whatever the send call answers, [handleSendEmail] ends with the
    busy flag cleared; the alert is the visible success alert with the
    fixed confirmation text exactly when a response with a 2xx status
    arrived, and nothing is logged then; in every other case (another
    status, or a transport error) the alert is the visible error alert with
    the fixed failure text, and the error itself only goes to the console. *)
Theorem handleSendEmail_reports (outcome : FetchOutcome) (c : Instance)
    (console : list string) :
  let c' := (handleSendEmail outcome c console).1 in
  let console' := (handleSendEmail outcome c console).2 in
  isLoading c' = false
  ∧ (alert c' = mkAlert "Email sent successfully!" true SUCCESS
     ↔ ∃ status, outcome = Responded status ∧ 200 ≤ status ≤ 299)
  ∧ ((∃ status, outcome = Responded status ∧ 200 ≤ status ≤ 299) →
     console' = console)
  ∧ ((¬ ∃ status, outcome = Responded status ∧ 200 ≤ status ≤ 299) →
     alert c' = mkAlert "Failed to send email" true ERROR
     ∧ console' = (console ++ [match outcome with
                               | Rejected error => error
                               | Responded _ => "Failed to send email"
                               end])%list).
Proof.
  unfold handleSendEmail, handleSendEmail_settle, handleSendEmail_try.
  destruct outcome as [status|error]; simpl.
  - destruct (ok status) eqn:Hok; simpl.
    + apply ok_spec in Hok.
      split; [done|]. split; [split; eauto|]. split; [done|].
      intros Hn. destruct Hn. eauto.
    + assert (¬ 200 ≤ status ≤ 299) as Hn.
      { rewrite <- ok_spec. congruence. }
      split; [done|]. split; [split; [done|]|].
      * intros (s & [= <-] & Hs). done.
      * split; [|done]. intros (s & [= <-] & Hs). done.
  - split; [done|]. split; [split; [done|]|].
    + intros (s & Hs & _). done.
    + split; [|done]. intros (s & Hs & _). done.
Qed.

(** C6: for every email type the request goes to a fixed recipient, the
    same for all types and all component states; its subject is the entry
    of the three-entry table [emailSubjects] for that type; and it carries
    the type itself. It is the request [handleSendEmail] issues. *)
Theorem sendRequest_fixed (e : EmailType) :
  customerEmail (body (sendRequest e)) = "khanofemperia@gmail.com"
  ∧ emailSubject (body (sendRequest e)) = emailSubjects e
  ∧ emailSubject (body (sendRequest e))
    ∈ ["Your Order's Confirmed"; "Your Order Has Been Shipped";
       "Your Order Has Been Delivered"]
  ∧ emailType (body (sendRequest e)) = e
  ∧ (∀ c : Instance,
       pending (handleSendEmail_start c)
       = (pending c ++ [sendRequest (prop_emailType c)])%list)
  ∧ (∀ e' : EmailType,
       customerEmail (body (sendRequest e'))
       = customerEmail (body (sendRequest e))).
Proof.
  repeat split; try done.
  destruct e; simpl; set_solver.
Qed.

(** C8: dismissing an alert hides it and empties its message; the
    severity is the one it had. *)
Theorem closeAlert_clears (a : Alert) :
  isVisible (closeAlert a) = false
  ∧ message (closeAlert a) = ""
  ∧ type (closeAlert a) = type a.
Proof. done. Qed.

(** C9: [renderEmailTemplate] gives each of the three email types its
    template, so the [null] of the [default] branch is returned for no
    email type. *)
Theorem renderEmailTemplate_total (e : EmailType) :
  renderEmailTemplate e
  = Some match e with
         | ORDER_CONFIRMED => OrderConfirmedTemplate
         | ORDER_SHIPPED => OrderShippedTemplate
         | ORDER_DELIVERED => OrderDeliveredTemplate
         end
  ∧ renderEmailTemplate e ≠ None.
Proof. by destruct e. Qed.

End SendAction.

(** ** Order lookup *)

Section OrderLookup.

Lemma split_slashFree (s : string) : hasSlash s = false → split s = [s].
Proof.
  induction s as [|c s IH]; simpl; [done|].
  intros H. apply orb_false_iff in H as [Hc Hs].
  by rewrite Hc, (IH Hs).
Qed.

Lemma hasDoubleSlash_slashFree (s : string) :
  hasSlash s = false → hasDoubleSlash s = false.
Proof.
  induction s as [|c s IH]; simpl; [done|].
  intros H. apply orb_false_iff in H as [Hc Hs].
  destruct s; [done|]. by rewrite Hc, (IH Hs).
Qed.

(** For an id without a slash the reference is the document of that id
    in the [orders] collection. *)
Lemma doc_orders_slashFree (id : string) :
  id ≠ "" → hasSlash id = false → doc "orders" [id] = Resolved ["orders"; id].
Proof.
  intros Hid Hs. unfold doc. rewrite decide_False by done.
  cbn [fromString].
  change (hasDoubleSlash "orders") with false. cbn iota.
  rewrite (hasDoubleSlash_slashFree _ Hs), (split_slashFree _ Hs).
  rewrite filter_cons_True by done. by vm_compute.
Qed.

Lemma getOrderById_read database id :
  id ≠ "" → hasSlash id = false →
  getOrderById database id
  = match readDocument database ["orders"; id] with
    | Threw error => Threw error
    | Resolved None => Resolved None
    | Resolved (Some data) => Resolved (Some (orderOfSnapshot id data))
    end.
Proof.
  intros Hid Hs. unfold getOrderById, getDoc.
  rewrite decide_False by done. rewrite (doc_orders_slashFree _ Hid Hs).
  destruct (readDocument database ["orders"; id]) as [[data|]|error]; done.
Qed.

Lemma orderOfSnapshot_id id data :
  orderOfSnapshot id data !! "id"
  = Some (default (JsString id) (data !! "id")).
Proof.
  unfold orderOfSnapshot.
  destruct (data !! "id") as [v|] eqn:Hd; simpl.
  - by erewrite lookup_union_Some_l.
  - rewrite lookup_union_r by done. by rewrite lookup_singleton_eq.
Qed.

Lemma orderOfSnapshot_other id data k :
  k ≠ "id" → orderOfSnapshot id data !! k = data !! k.
Proof.
  intros Hk. unfold orderOfSnapshot.
  destruct (data !! k) as [v|] eqn:Hd.
  - by erewrite lookup_union_Some_l.
  - rewrite lookup_union_r by done. by rewrite lookup_singleton_ne.
Qed.

(** C10, as the code has it: [getOrderById] resolves to [null] for the
    empty id, without reading the database, and for an id without a slash
    whose document is read and is not there, and it does not throw in
    these cases; for a document that is there it resolves to a record with
    the document's fields, whose [id] is the document's id whenever the
    fields do not contain an [id] of their own. *)
Theorem getOrderById_result (database : Firestore) (id : string) :
  (id = "" → getOrderById database id = Resolved None)
  ∧ (id ≠ "" → hasSlash id = false →
     readDocument database ["orders"; id] = Resolved None →
     getOrderById database id = Resolved None)
  ∧ (∀ data,
       id ≠ "" → hasSlash id = false →
       readDocument database ["orders"; id] = Resolved (Some data) →
       ∃ order,
         getOrderById database id = Resolved (Some order)
         ∧ (data !! "id" = None → order !! "id" = Some (JsString id))
         ∧ ∀ k, k ≠ "id" → order !! k = data !! k).
Proof.
  split; [|split].
  - intros ->. done.
  - intros Hid Hs Hnone. by rewrite getOrderById_read, Hnone.
  - intros data Hid Hs Hsome. rewrite getOrderById_read, Hsome by done.
    exists (orderOfSnapshot id data). split; [done|]. split.
    + intros Hd. by rewrite orderOfSnapshot_id, Hd.
    + intros k Hk. by apply orderOfSnapshot_other.
Qed.

(** C10 fails as stated: the document [o1] of the [orders] collection
    stores a field [id] of its own, and the record returned for [o1] has
    that field's value, not the document's id. *)
Lemma getOrderById_id_overridden :
  let data : gmap string JsValue := {[ "id" := JsString "o2" ]} in
  let database := Online {[ ["orders"; "o1"] := data ]} in
  ∃ order,
    getOrderById database "o1" = Resolved (Some order)
    ∧ order !! "id" = Some (JsString "o2")
    ∧ order !! "id" ≠ Some (JsString "o1").
Proof.
  simpl. exists (orderOfSnapshot "o1" {[ "id" := JsString "o2" ]}).
  split; [|split].
  - rewrite getOrderById_read by done. simpl.
    by rewrite lookup_singleton_eq.
  - by rewrite orderOfSnapshot_id, lookup_singleton_eq.
  - by rewrite orderOfSnapshot_id, lookup_singleton_eq.
Qed.



End OrderLookup.

(** ** The page: commits, the scroll lock and the send control *)

Section Page.

Lemma overlayNameKeys_inj e e' :
  overlayNameKeys e = overlayNameKeys e' → e = e'.
Proof. by destruct e, e'. Qed.

Lemma initialState_wellFormed : wellFormed OverlayStore.initialState.
Proof.
  eexists. split; [apply lookup_singleton_eq|]. split; [done|].
  intros e. destruct e; simpl; eexists; split; try reflexivity.
Qed.

Lemma wellFormed_isOverlayVisible st e :
  wellFormed st → isOverlayVisible st e = Some (overlayFlag st e).
Proof.
  intros (page & Hp & _ & Ho). destruct (Ho e) as (ov & Hov & _).
  unfold overlayFlag, isOverlayVisible. rewrite Hp. simpl.
  rewrite Hov. done.
Qed.

Lemma wellFormed_names st e :
  wellFormed st →
  pageName st = Some "orderDetails"
  ∧ overlayName st e = Some (overlayNameKeys e).
Proof.
  intros (page & Hp & Hn & Ho). destruct (Ho e) as (ov & Hov & Hon).
  unfold pageName, overlayName. rewrite Hp. simpl. rewrite Hov. simpl.
  by rewrite Hn, Hon.
Qed.

Lemma setVisibility_wellFormed v e st :
  wellFormed st →
  ∃ st', OverlayStore.setVisibility v "orderDetails" (overlayNameKeys e) st
         = Some st'
         ∧ wellFormed st'.
Proof.
  intros (page & Hp & Hn & Ho). destruct (Ho e) as (ov & Hov & Hon).
  unfold OverlayStore.setVisibility. rewrite Hp. simpl. rewrite Hov. simpl.
  eexists. split; [done|].
  eexists. split; [apply lookup_insert_eq|]. split; [done|].
  intros e'. simpl. destruct (decide (e' = e)) as [->|Hne].
  - eexists. split; [apply lookup_insert_eq|]. done.
  - destruct (Ho e') as (ov' & Hov' & Hon').
    exists ov'. split; [|done]. rewrite lookup_insert_ne; [done|].
    intros Heq. by apply overlayNameKeys_inj in Heq.
Qed.

Lemma onClick_wellFormed e st :
  wellFormed st →
  ∃ st', EmailPreviewButton_onClick e st = Some st' ∧ wellFormed st'.
Proof.
  intros Hwf. unfold EmailPreviewButton_onClick.
  destruct (wellFormed_names st e Hwf) as [-> ->]. simpl.
  by apply setVisibility_wellFormed.
Qed.

Lemma backButton_wellFormed e st :
  wellFormed st →
  ∃ st', backButton_onClick e st = Some st' ∧ wellFormed st'.
Proof.
  intros Hwf. unfold backButton_onClick.
  destruct (wellFormed_names st e Hwf) as [-> ->]. simpl.
  by apply setVisibility_wellFormed.
Qed.

(** *** Commits *)

Lemma mapM_total {A B} (f : A → option B) (g : A → B) (l : list A) :
  (∀ x, x ∈ l → f x = Some (g x)) → mapM f l = Some (g <$> l).
Proof.
  intros Hf. apply mapM_Some_2.
  induction l as [|x l IH]; simpl; constructor.
  - apply Hf. by left.
  - apply IH. intros y Hy. apply Hf. by right.
Qed.

Lemma zip_fmap_self {A B} (g : A → B) (l : list A) :
  zip l (g <$> l) = (λ x, (x, g x)) <$> l.
Proof. induction l as [|x l IH]; csimpl; [done|]. by rewrite IH. Qed.

Lemma renderDeps_wellFormed st c :
  wellFormed st → renderDeps st c = Some (depsOf st c).
Proof.
  intros Hwf. unfold renderDeps, depsOf.
  by rewrite (wellFormed_isOverlayVisible _ _ Hwf).
Qed.

(** On a well-formed registry a commit never fails, and this is the page
    it produces. *)
Lemma commit_wellFormed w :
  wellFormed (store w) →
  commit w
  = Some (mkWorld (store w) (sync (store w) <$> instances w)
            (foldl (λ o c, runEffect o (c, depsOf (store w) c))
               (foldl (λ o c, runCleanup o (c, depsOf (store w) c))
                  (overflow w) (instances w))
               (instances w))
            (console w)).
Proof.
  intros Hwf. unfold commit.
  rewrite (mapM_total _ (depsOf (store w))); simpl.
  - rewrite zip_fmap_self, <- list_fmap_compose, !foldl_fmap. done.
  - intros c _. by apply renderDeps_wellFormed.
Qed.

Lemma cleanups_unchanged (d : Instance → bool * bool) l o :
  Forall (λ c, effectDeps c = d c) l →
  foldl (λ o c, runCleanup o (c, d c)) o l = o.
Proof.
  induction 1 as [|c l Hc _ IH]; simpl; [done|].
  unfold runCleanup at 2. simpl. by rewrite decide_True.
Qed.

(** The effects of a commit: either no dependency changed and the style
    is untouched, or the style is what the effect of some instance wrote. *)
Lemma effects_last (d : Instance → bool * bool) l o :
  (Forall (λ c, effectDeps c = d c) l
   ∧ foldl (λ o c, runEffect o (c, d c)) o l = o)
  ∨ (∃ c, c ∈ l
          ∧ foldl (λ o c, runEffect o (c, d c)) o l = scrollLock_effect (d c)).
Proof.
  induction l as [|c l IH] using rev_ind; [left; by split|].
  rewrite foldl_snoc. unfold runEffect at 1 3. simpl.
  destruct (decide (effectDeps c = d c)) as [Heq|Hne].
  - destruct IH as [[Hall Ho]|(c' & Hc' & Ho)].
    + left. split; [|done]. apply Forall_app. split; [done|]. by constructor.
    + right. exists c'. split; [|done]. apply elem_of_app. by left.
  - right. exists c. split; [|done]. apply elem_of_app. right. by left.
Qed.

Lemma effectDeps_sync st (l : list Instance) :
  effectDeps <$> (sync st <$> l) = depsOf st <$> l.
Proof. rewrite <- list_fmap_compose. by apply list_fmap_ext. Qed.

Lemma depsOf_sync st c : depsOf st (sync st c) = depsOf st c.
Proof. done. Qed.

Lemma commit_lastWriter w w' :
  wellFormed (store w) → lastWriter w → commit w = Some w' → lastWriter w'.
Proof.
  intros Hwf Hlw. rewrite (commit_wellFormed _ Hwf). intros [= <-].
  unfold lastWriter in *. simpl. rewrite effectDeps_sync.
  destruct Hlw as [Hnil|(d & Hd & Ho)]; [left; by rewrite Hnil|]. right.
  destruct (effects_last (depsOf (store w)) (instances w)
              (foldl (λ o c, runCleanup o (c, depsOf (store w) c))
                 (overflow w) (instances w)))
    as [[Hall ->]|(c & Hc & ->)].
  - rewrite (cleanups_unchanged _ _ _ Hall).
    exists d. split; [|done].
    replace (depsOf (store w) <$> instances w)
      with (effectDeps <$> instances w); [done|].
    apply Forall_fmap_ext_1. done.
  - exists (depsOf (store w) c). split; [|done].
    by apply list_elem_of_fmap_2.
Qed.

Lemma commit_pageInvariant w :
  wellFormed (store w) → Forall busyIffPending (instances w) →
  lastWriter w →
  ∃ w', commit w = Some w'
        ∧ pageInvariant w'
        ∧ store w' = store w
        ∧ console w' = console w
        ∧ instances w' = sync (store w) <$> instances w.
Proof.
  intros Hwf Hbusy Hlw.
  pose proof (commit_wellFormed _ Hwf) as Hc.
  eexists. split; [exact Hc|]. split; [|done].
  split; [done|]. split; [|split].
  - unfold inSync. simpl. apply Forall_fmap, Forall_true. done.
  - simpl. apply Forall_fmap. eapply Forall_impl; [exact Hbusy|]. done.
  - by eapply commit_lastWriter.
Qed.

(** *** Events *)

Lemma sync_inSync st c : effectDeps c = depsOf st c → sync st c = c.
Proof. intros H. unfold sync, setEffectDeps. rewrite <- H. by destruct c. Qed.

Lemma lastWriter_ext w w1 :
  effectDeps <$> instances w1 = effectDeps <$> instances w →
  overflow w1 = overflow w → lastWriter w → lastWriter w1.
Proof.
  unfold lastWriter. intros Hd Ho [Hnil|H].
  - left. rewrite Hnil in Hd. by apply fmap_nil_inv in Hd.
  - right. by rewrite Hd, Ho.
Qed.

Lemma effectDeps_insert (l : list Instance) j c c' :
  l !! j = Some c → effectDeps c' = effectDeps c →
  effectDeps <$> <[j:=c']> l = effectDeps <$> l.
Proof.
  intros Hj He. rewrite list_fmap_insert, He.
  apply list_insert_id. by rewrite list_lookup_fmap, Hj.
Qed.

Lemma lookup_sync_insert st (l : list Instance) j c' i c :
  l !! i = Some c → is_Some (l !! j) →
  (sync st <$> <[j:=c']> l) !! i
  = Some (sync st (if decide (j = i) then c' else c)).
Proof.
  intros Hi Hj. rewrite list_lookup_fmap.
  destruct (decide (j = i)) as [->|Hne].
  - rewrite list_lookup_insert_eq; [done|]. by eapply lookup_lt_Some.
  - by rewrite list_lookup_insert_ne, Hi.
Qed.

Lemma handleSendEmail_settle_console outcome c console :
  (handleSendEmail_settle outcome c console).1
  = (handleSendEmail_settle outcome c []).1.
Proof.
  unfold handleSendEmail_settle.
  by destruct (handleSendEmail_try outcome c).
Qed.

Lemma handleSendEmail_settle_effectDeps outcome c console :
  effectDeps (handleSendEmail_settle outcome c console).1 = effectDeps c.
Proof.
  unfold handleSendEmail_settle, handleSendEmail_try.
  destruct outcome as [status|error]; [destruct (ok status)|]; done.
Qed.

Lemma handleSendEmail_settle_busy outcome c console :
  busyIffPending c → pending c ≠ [] →
  busyIffPending (handleSendEmail_settle outcome c console).1.
Proof.
  unfold busyIffPending. intros Hb Hp.
  destruct (isLoading c) eqn:Hl; [|done].
  unfold handleSendEmail_settle, handleSendEmail_try.
  destruct outcome as [status|error]; [destruct (ok status)|];
    simpl; by rewrite Hb.
Qed.

(** Every event is handled on a page that satisfies the invariant, the
    invariant holds again afterwards, and each instance becomes what
    [instanceAfter] says, re-synchronised by the commit. *)
Lemma step_pageInvariant ev w :
  pageInvariant w →
  ∃ w', step ev w = Some w'
        ∧ pageInvariant w'
        ∧ ∀ i c, instances w !! i = Some c →
            instances w' !! i
            = Some (sync (store w') (instanceAfter ev (store w) i c)).
Proof.
  intros (Hwf & Hsync & Hbusy & Hlw).
  assert (Hnoop : ∀ i c, instances w !! i = Some c →
            instances w !! i = Some (sync (store w) c)).
  { intros i c Hi. rewrite Hi. f_equal. symmetry. apply sync_inSync.
    eapply Forall_lookup_1 in Hsync; [|exact Hi]. done. }
  destruct ev as [e|e|j|j outcome|j]; simpl.
  - destruct (onClick_wellFormed e _ Hwf) as (st' & -> & Hwf'). simpl.
    destruct (commit_pageInvariant
                (mkWorld st' (instances w) (overflow w) (console w)))
      as (w' & Hc & Hinv & Hst & _ & Hi); [done..|].
    exists w'. split; [done|]. split; [done|].
    intros i c Hic. rewrite Hi, Hst. simpl.
    by rewrite list_lookup_fmap, Hic.
  - destruct (backButton_wellFormed e _ Hwf) as (st' & -> & Hwf'). simpl.
    destruct (commit_pageInvariant
                (mkWorld st' (instances w) (overflow w) (console w)))
      as (w' & Hc & Hinv & Hst & _ & Hi); [done..|].
    exists w'. split; [done|]. split; [done|].
    intros i c Hic. rewrite Hi, Hst. simpl.
    by rewrite list_lookup_fmap, Hic.
  - destruct (instances w !! j) as [cj|] eqn:Hj.
    + rewrite (wellFormed_isOverlayVisible _ _ Hwf). simpl.
      destruct (overlayFlag (store w) (prop_emailType cj)
                && negb (renderSendButton_disabled cj)) eqn:Hen.
      * assert (Hbj : busyIffPending cj)
          by (eapply Forall_lookup_1 in Hbusy; [|exact Hj]; done).
        apply andb_true_iff in Hen as [Hflag Hidle].
        unfold renderSendButton_disabled in Hidle.
        apply negb_true_iff in Hidle.
        destruct (commit_pageInvariant
                    (mkWorld (store w)
                       (<[j:=handleSendEmail_start cj]> (instances w))
                       (overflow w) (console w)))
          as (w' & Hc & Hinv & Hst & _ & Hi); simpl.
        { done. }
        { apply Forall_insert; [done|]. unfold busyIffPending in *.
          simpl. by rewrite Hbj, Hidle. }
        { eapply (lastWriter_ext w); [|done|done]. simpl.
          by eapply effectDeps_insert. }
        exists w'. split; [done|]. split; [done|].
        intros i c Hic. rewrite Hi, Hst. simpl in *.
        rewrite (lookup_sync_insert _ _ _ _ _ _ Hic) by eauto.
        do 2 f_equal. destruct (decide (j = i)) as [->|]; [|done].
        assert (c = cj) as -> by congruence.
        unfold renderSendButton_disabled. by rewrite Hflag, Hidle.
      * exists w. split; [done|]. split; [done|].
        intros i c Hic. rewrite (Hnoop _ _ Hic). do 2 f_equal.
        destruct (decide (j = i)) as [->|]; [|done].
        assert (c = cj) as -> by congruence. by rewrite Hen.
    + exists w. split; [done|]. split; [done|].
      intros i c Hic. rewrite (Hnoop _ _ Hic). do 2 f_equal.
      destruct (decide (j = i)) as [->|]; [congruence|done].
  - destruct (instances w !! j) as [cj|] eqn:Hj.
    + destruct (pending cj) as [|r rs] eqn:Hp.
      * exists w. split; [done|]. split; [done|].
        intros i c Hic. rewrite (Hnoop _ _ Hic). do 2 f_equal.
        destruct (decide (j = i)) as [->|]; [|done].
        assert (c = cj) as -> by congruence. by rewrite Hp.
      * assert (Hbj : busyIffPending cj)
          by (eapply Forall_lookup_1 in Hbusy; [|exact Hj]; done).
        destruct (handleSendEmail_settle outcome cj (console w))
          as [c' console'] eqn:Hs.
        assert (Hc' : c' = (handleSendEmail_settle outcome cj []).1).
        { rewrite <- (handleSendEmail_settle_console _ _ (console w)).
          by rewrite Hs. }
        destruct (commit_pageInvariant
                    (mkWorld (store w) (<[j:=c']> (instances w))
                       (overflow w) console'))
          as (w' & Hc & Hinv & Hst & _ & Hi); simpl.
        { done. }
        { apply Forall_insert; [done|]. rewrite Hc'.
          apply handleSendEmail_settle_busy; [done|]. by rewrite Hp. }
        { eapply (lastWriter_ext w); [|done|done]. simpl.
          eapply effectDeps_insert; [done|]. rewrite Hc'.
          apply handleSendEmail_settle_effectDeps. }
        exists w'. split; [done|]. split; [done|].
        intros i c Hic. rewrite Hi, Hst. simpl in *.
        rewrite (lookup_sync_insert _ _ _ _ _ _ Hic) by eauto.
        do 2 f_equal. destruct (decide (j = i)) as [->|]; [|done].
        assert (c = cj) as -> by congruence. by rewrite Hp.
    + exists w. split; [done|]. split; [done|].
      intros i c Hic. rewrite (Hnoop _ _ Hic). do 2 f_equal.
      destruct (decide (j = i)) as [->|]; [congruence|done].
  - destruct (instances w !! j) as [cj|] eqn:Hj.
    + assert (Hbj : busyIffPending cj)
        by (eapply Forall_lookup_1 in Hbusy; [|exact Hj]; done).
      destruct (commit_pageInvariant
                  (mkWorld (store w)
                     (<[j:=setAlert (closeAlert (alert cj)) cj]> (instances w))
                     (overflow w) (console w)))
        as (w' & Hc & Hinv & Hst & _ & Hi); simpl.
      { done. }
      { apply Forall_insert; [done|]. done. }
      { eapply (lastWriter_ext w); [|done|done]. simpl.
        by eapply effectDeps_insert. }
      exists w'. split; [done|]. split; [done|].
      intros i c Hic. rewrite Hi, Hst. simpl in *.
      rewrite (lookup_sync_insert _ _ _ _ _ _ Hic) by eauto.
      do 2 f_equal. destruct (decide (j = i)) as [->|]; [|done].
      by assert (c = cj) as -> by congruence.
    + exists w. split; [done|]. split; [done|].
      intros i c Hic. rewrite (Hnoop _ _ Hic). do 2 f_equal.
      destruct (decide (j = i)) as [->|]; [congruence|done].
Qed.

(** The button's click followed by the overlay's own read of its flag, and
    the back button's click followed by the same read. *)
Lemma click_then_render st e :
  wellFormed st →
  (∃ st', EmailPreviewButton_onClick e st = Some st'
          ∧ isOverlayVisible st' e = Some true)
  ∧ (∃ st', backButton_onClick e st = Some st'
            ∧ isOverlayVisible st' e = Some false).
Proof.
  intros Hwf. unfold EmailPreviewButton_onClick, backButton_onClick.
  destruct (wellFormed_names st e Hwf) as [-> ->]. simpl.
  unfold OverlayStore.showOverlay, OverlayStore.hideOverlay. split.
  - destruct (setVisibility_wellFormed true e st Hwf) as (st' & Hs & _).
    exists st'. split; [done|].
    exact (setVisibility_read _ _ _ _ _ Hs).
  - destruct (setVisibility_wellFormed false e st Hwf) as (st' & Hs & _).
    exists st'. split; [done|].
    exact (setVisibility_read _ _ _ _ _ Hs).
Qed.

Lemma commit_length w w' :
  commit w = Some w' → length (instances w') = length (instances w).
Proof.
  unfold commit. destruct (mapM _ _) as [deps|] eqn:Hm; simpl; [|done].
  intros [= <-]. simpl. apply length_mapM in Hm.
  rewrite length_fmap, length_zip_with. lia.
Qed.

Lemma step_length ev w w' :
  step ev w = Some w' → length (instances w') = length (instances w).
Proof.
  destruct ev as [e|e|j|j outcome|j]; simpl.
  - destruct (EmailPreviewButton_onClick e (store w)); simpl; [|done].
    intros H. by apply commit_length in H.
  - destruct (backButton_onClick e (store w)); simpl; [|done].
    intros H. by apply commit_length in H.
  - destruct (instances w !! j) as [cj|]; [|by intros [= <-]].
    destruct (isOverlayVisible _ _) as [v|]; simpl; [|done].
    destruct (v && _); [|by intros [= <-]].
    intros H. apply commit_length in H. simpl in H.
    by rewrite length_insert in H.
  - destruct (instances w !! j) as [cj|]; [|by intros [= <-]].
    destruct (pending cj); [by intros [= <-]|].
    destruct (handleSendEmail_settle _ _ _) as [c' console'].
    intros H. apply commit_length in H. simpl in H.
    by rewrite length_insert in H.
  - destruct (instances w !! j) as [cj|]; [|by intros [= <-]].
    intros H. apply commit_length in H. simpl in H.
    by rewrite length_insert in H.
Qed.

Lemma run_pageInvariant evs w :
  pageInvariant w →
  ∃ w', run evs w = Some w' ∧ pageInvariant w'
        ∧ length (instances w') = length (instances w).
Proof.
  revert w. induction evs as [|ev evs IH]; intros w Hinv; simpl.
  - by exists w.
  - destruct (step_pageInvariant ev w Hinv) as (w1 & Hstep & Hinv1 & _).
    rewrite Hstep. simpl.
    destruct (IH w1 Hinv1) as (w' & Hrun & Hinv' & Hlen).
    exists w'. split; [done|]. split; [done|].
    rewrite Hlen. by eapply step_length.
Qed.

(** *** Mounting *)

Lemma foldl_last_write {A B} (f : B → A) (l : list B) (o : A) :
  l = [] ∨ ∃ c, c ∈ l ∧ foldl (λ _ c, f c) o l = f c.
Proof.
  destruct l as [|c l] using rev_ind; [by left|]. right.
  exists c. rewrite foldl_snoc. split; [|done].
  apply elem_of_app. right. by left.
Qed.

Lemma mount_pageInvariant st ets o0 :
  wellFormed st →
  ∃ w, mount st ets o0 = Some w ∧ pageInvariant w
       ∧ prop_emailType <$> instances w = ets.
Proof.
  intros Hwf. unfold mount.
  rewrite (mapM_total _
             (λ e, mkInstance e false initialAlert (overlayFlag st e, false) [])).
  2:{ intros e _. unfold mountInstance.
      by rewrite (wellFormed_isOverlayVisible _ _ Hwf). }
  simpl. eexists. split; [done|]. split; simpl.
  - split; [done|]. split; [|split].
    + unfold inSync. simpl. apply Forall_fmap, Forall_true. done.
    + simpl. apply Forall_fmap, Forall_true. done.
    + unfold lastWriter. simpl.
      match goal with
      | |- context [foldl ?g o0 ?l] =>
          destruct (foldl_last_write (λ c, scrollLock_effect (effectDeps c))
                      l o0) as [Hnil|(c & Hc & Ho)]
      end; [by left|].
      right. exists (effectDeps c). split; [|done].
      by apply list_elem_of_fmap_2.
  - rewrite <- list_fmap_compose. simpl. apply list_fmap_id.
Qed.

Lemma page_reachable st ets o0 evs :
  wellFormed st →
  ∃ w, mount st ets o0 ≫= run evs = Some w ∧ pageInvariant w
       ∧ length (instances w) = length ets.
Proof.
  intros Hwf.
  destruct (mount_pageInvariant st ets o0 Hwf) as (w0 & -> & Hinv0 & Hets).
  simpl. destruct (run_pageInvariant evs w0 Hinv0) as (w & Hrun & Hinv & Hlen).
  exists w. split; [done|]. split; [done|].
  by rewrite Hlen, <- Hets, length_fmap.
Qed.

(** *** The scroll lock *)

Lemma scrollLock_effect_hidden d :
  scrollLock_effect d = "hidden" ↔ anyVisible d = true.
Proof. unfold scrollLock_effect, anyVisible. by destruct (_ || _). Qed.





(** C4, as the code has it: when the visibility condition of an instance
    changes, the cleanup of the previous run goes first and the style then
    is the new lock state; the cleanup restores the scrollable state
    exactly when the values its effect captured show neither overlay nor
    alert, and leaves the style alone otherwise. On a reachable page the
    captured values are the instance's current ones, so tearing an
    instance down restores the scroll when neither its overlay nor its
    alert is visible, and keeps the style as it is when one of them is. *)
Theorem scroll_lock_scoped_effect (st : OverlayStore.State)
    (ets : list EmailType) (o0 : string) (evs : list Event) :
  wellFormed st →
  (∀ c d o, effectDeps c ≠ d →
     runEffect (runCleanup o (c, d)) (c, d)
     = if anyVisible d then "hidden" else "visible")
  ∧ (∀ d o, scrollLock_cleanup d o = if anyVisible d then o else "visible")
  ∧ ∃ w, mount st ets o0 ≫= run evs = Some w
         ∧ ∀ i c, instances w !! i = Some c →
             renderDeps (store w) c = Some (effectDeps c)
             ∧ (isOverlayVisible (store w) (prop_emailType c) = Some false →
                isVisible (alert c) = false →
                overflow (unmount i w) = "visible")
             ∧ (isOverlayVisible (store w) (prop_emailType c) = Some true
                ∨ isVisible (alert c) = true →
                overflow (unmount i w) = overflow w).
Proof.
  intros Hwf. split; [|split].
  - intros c d o Hne. unfold runEffect, runCleanup. simpl.
    by rewrite !decide_False.
  - intros [a b] o. unfold scrollLock_cleanup, anyVisible. simpl.
    by destruct a, b.
  - destruct (page_reachable st ets o0 evs Hwf)
      as (w & Hw & (Hwf' & Hsync & _ & _) & _).
    exists w. split; [done|]. intros i c Hi.
    assert (Hdc : effectDeps c = depsOf (store w) c).
    { eapply Forall_lookup_1 in Hsync; [|exact Hi]. done. }
    split; [by rewrite Hdc; apply renderDeps_wellFormed|].
    unfold unmount. rewrite Hi. simpl. rewrite Hdc.
    unfold scrollLock_cleanup, depsOf, overlayFlag. simpl. split.
    + intros -> ->. done.
    + intros [->| ->]; simpl; [done|]. by rewrite andb_false_r.
Qed.

Lemma scroll_lock_scoped_effect_witness :
  wellFormed OverlayStore.initialState
  ∧ ∃ w, mount OverlayStore.initialState [ORDER_DELIVERED] ""
           ≫= run [Show ORDER_DELIVERED] = Some w
         ∧ ∀ i c, instances w !! i = Some c →
             renderDeps (store w) c = Some (effectDeps c)
             ∧ (isOverlayVisible (store w) (prop_emailType c) = Some false →
                isVisible (alert c) = false →
                overflow (unmount i w) = "visible")
             ∧ (isOverlayVisible (store w) (prop_emailType c) = Some true
                ∨ isVisible (alert c) = true →
                overflow (unmount i w) = overflow w).
Proof.
  split; [exact initialState_wellFormed|].
  exact (proj2 (proj2 (scroll_lock_scoped_effect OverlayStore.initialState
                         [ORDER_DELIVERED] "" [Show ORDER_DELIVERED]
                         initialState_wellFormed))).
Defined.

(** C4 fails as stated: the shipped preview is shown, an email is sent
    and acknowledged, and the overlay is hidden while the alert is still
    up; tearing the instance down then leaves a page with no instance and
    no visible overlay, and the scroll still disabled. *)
Lemma scroll_lock_leaks_on_teardown :
  let page :=
    mount OverlayStore.initialState [ORDER_SHIPPED] ""
      ≫= run [Show ORDER_SHIPPED; ClickSend 0%nat;
              Settle 0%nat (Responded 200); Hide ORDER_SHIPPED] in
  let after := unmount 0 <$> page in
  instances <$> after = Some []
  ∧ (after ≫= λ w, isOverlayVisible (store w) ORDER_CONFIRMED) = Some false
  ∧ (after ≫= λ w, isOverlayVisible (store w) ORDER_SHIPPED) = Some false
  ∧ (after ≫= λ w, isOverlayVisible (store w) ORDER_DELIVERED) = Some false
  ∧ overflow <$> after = Some "hidden".
Proof. repeat split; by vm_compute. Qed.

(** *** The send control *)

Lemma phase_sync st c : phase (sync st c) = phase c.
Proof. done. Qed.

(** C5: on every reachable page each send control is either [Idle] with
    no request pending and its button enabled, or [Submitting] with
    exactly one request pending and its button disabled. Every event is
    handled, and for the control at any position: it goes from [Idle] to
    [Submitting] only by a click on its own button; a click while
    [Submitting] changes nothing; when its request settles, with whatever
    outcome, it is [Idle] again with a visible success or error alert and
    nothing pending; it leaves [Submitting] only that way; a click on the
    button of an [Idle] control whose overlay is shown does enter
    [Submitting], issues the request and disables the button; the alert
    after a settle is the success alert for a 2xx response and the error
    alert otherwise; and while the overlay is hidden there is no button
    to click. *)
Theorem send_control_state_machine (st : OverlayStore.State)
    (ets : list EmailType) (o0 : string) (evs : list Event) :
  wellFormed st →
  ∃ w, mount st ets o0 ≫= run evs = Some w
       ∧ (∀ c, c ∈ instances w →
            match phase c with
            | Idle => pending c = [] ∧ renderSendButton_disabled c = false
            | Submitting =>
                pending c = [sendRequest (prop_emailType c)]
                ∧ renderSendButton_disabled c = true
            end)
       ∧ ∀ ev, ∃ w', step ev w = Some w'
           ∧ ∀ i c, instances w !! i = Some c →
               ∃ c', instances w' !! i = Some c'
                 ∧ (phase c = Idle → phase c' = Submitting → ev = ClickSend i)
                 ∧ (phase c = Submitting → ev = ClickSend i → w' = w)
                 ∧ (phase c = Submitting → ∀ outcome, ev = Settle i outcome →
                    phase c' = Idle ∧ pending c' = []
                    ∧ isVisible (alert c') = true
                    ∧ (type (alert c') = SUCCESS ∨ type (alert c') = ERROR))
                 ∧ (phase c = Submitting → phase c' = Idle →
                    ∃ outcome, ev = Settle i outcome)
                 ∧ (phase c = Idle →
                    isOverlayVisible (store w) (prop_emailType c) = Some true →
                    ev = ClickSend i →
                    phase c' = Submitting
                    ∧ pending c' = [sendRequest (prop_emailType c)]
                    ∧ renderSendButton_disabled c' = true
                    ∧ alert c' = alert c)
                 ∧ (phase c = Submitting → ∀ outcome, ev = Settle i outcome →
                    alert c'
                    = match loggedError outcome with
                      | Some _ => mkAlert "Failed to send email" true ERROR
                      | None => mkAlert "Email sent successfully!" true SUCCESS
                      end)
                 ∧ (phase c = Idle →
                    isOverlayVisible (store w) (prop_emailType c) = Some false →
                    ev = ClickSend i → w' = w).
Proof.
  intros Hwf.
  destruct (page_reachable st ets o0 evs Hwf) as (w & Hw & Hinv & _).
  exists w. split; [done|].
  pose proof Hinv as (Hwf' & _ & Hbusy & _). split.
  - intros c Hc. eapply Forall_forall in Hbusy; [|exact Hc].
    unfold busyIffPending, phase, renderSendButton_disabled in *.
    by destruct (isLoading c).
  - intros ev.
    destruct (step_pageInvariant ev w Hinv) as (w' & Hstep & _ & Hafter).
    exists w'. split; [done|]. intros i c Hi.
    eexists. split; [by apply Hafter|]. rewrite phase_sync.
    assert (Hb : busyIffPending c)
      by (eapply Forall_lookup_1 in Hbusy; [|exact Hi]; done).
    unfold busyIffPending in Hb. unfold phase.
    destruct (isLoading c) eqn:Hl.
    + split; [done|]. split; [|split; [|split; [|split; [done|split]]]].
      * intros _ ->. simpl in Hstep. rewrite Hi in Hstep.
        rewrite (wellFormed_isOverlayVisible _ _ Hwf') in Hstep.
        simpl in Hstep. unfold renderSendButton_disabled in Hstep.
        rewrite Hl, andb_false_r in Hstep. congruence.
      * intros _ outcome ->. simpl. rewrite decide_True by done.
        rewrite Hb. unfold handleSendEmail_settle, handleSendEmail_try.
        destruct outcome as [status|error]; [destruct (ok status)|];
          simpl; rewrite Hb; auto.
      * intros _. destruct ev as [e|e|j|j outcome|j]; simpl;
          try (rewrite Hl; done);
          destruct (decide (j = i)) as [->|];
          try (simpl; rewrite Hl; done).
        -- unfold renderSendButton_disabled.
           rewrite Hl, andb_false_r, Hl. done.
        -- eauto.
      * intros _ outcome ->. simpl. rewrite decide_True by done.
        rewrite Hb.
        unfold handleSendEmail_settle, handleSendEmail_try, loggedError.
        destruct outcome as [status|error]; [destruct (ok status)|]; done.
      * done.
    + split; [|split; [done|split; [done|split; [done|split; [|split; [done|]]]]]].
      * intros _.
        destruct ev as [e|e|j|j outcome|j]; simpl;
          try (rewrite Hl; done);
          destruct (decide (j = i)) as [->|];
          try (simpl; rewrite Hl; done).
        -- done.
        -- rewrite Hb, Hl. done.
      * intros _ Hvis ->. simpl. rewrite decide_True by done.
        unfold overlayFlag, renderSendButton_disabled. rewrite Hvis, Hl.
        simpl. by rewrite Hb.
      * intros _ Hvis ->. simpl in Hstep. rewrite Hi, Hvis in Hstep.
        simpl in Hstep. congruence.
Qed.

Lemma send_control_state_machine_witness :
  wellFormed OverlayStore.initialState
  ∧ ∃ w, mount OverlayStore.initialState [ORDER_CONFIRMED] ""
           ≫= run [Show ORDER_CONFIRMED; ClickSend 0%nat] = Some w
         ∧ (∃ c, instances w !! 0%nat = Some c ∧ phase c = Submitting
                 ∧ pending c = [sendRequest ORDER_CONFIRMED])
         ∧ ∀ c, c ∈ instances w →
             match phase c with
             | Idle => pending c = [] ∧ renderSendButton_disabled c = false
             | Submitting =>
                 pending c = [sendRequest (prop_emailType c)]
                 ∧ renderSendButton_disabled c = true
             end.
Proof.
  split; [exact initialState_wellFormed|].
  destruct (send_control_state_machine OverlayStore.initialState
              [ORDER_CONFIRMED] "" [Show ORDER_CONFIRMED; ClickSend 0%nat]
              initialState_wellFormed) as (w & Hw & Hphase & _).
  exists w. split; [exact Hw|]. split; [|exact Hphase].
  vm_compute in Hw. injection Hw as <-.
  eexists. split; [reflexivity|]. split; reflexivity.
Defined.

End Page.

(** ** The navigation bar's menu *)

Section NavbarLaws.
Import Navbar.

Lemma removeEventListener_only h : removeEventListener [h] h = [].
Proof.
  unfold removeEventListener. rewrite filter_cons, decide_False by tauto.
  done.
Qed.

Lemma addEventListener_first h : addEventListener [] h = [h].
Proof.
  unfold addEventListener. rewrite decide_False; [done|].
  apply not_elem_of_nil.
Qed.

Lemma mount_tidy : tidy mount.
Proof.
  unfold mount, commit, runEffect. simpl.
  rewrite addEventListener_first. split; [done|]. by eexists.
Qed.

(** One event on a tidy bar: the state moves as [dropdownAfter] says and
    the bar is tidy again. *)
Lemma step_tidy ev w :
  tidy w →
  isMenuDropdownVisible (step ev w)
  = dropdownAfter (isMenuDropdownVisible w) ev
  ∧ tidy (step ev w).
Proof.
  destruct w as [v ref md sc reg n].
  intros (Href & h & Hreg & Hmd & Hsc & Hsee). simpl in *. subst.
  unfold step, commit. simpl.
  set (v' := dispatch ev _).
  assert (Hv' : v' = dropdownAfter (seesVisible h) ev).
  { unfold v', dispatch, handleClickOutside, handleScroll, toggleMenuDropdown.
    simpl. destruct ev as [inside| |]; simpl; [by destruct inside| |done].
    by destruct (seesVisible h). }
  destruct (decide (seesVisible h = v')) as [Heq|Hne].
  - simpl. split; [done|]. split; [done|]. exists h. by rewrite <- Heq.
  - unfold runEffect, runCleanup. simpl.
    rewrite removeEventListener_only, addEventListener_first.
    split; [done|]. split; [done|]. by eexists.
Qed.

Lemma run_tidy evs w :
  tidy w →
  isMenuDropdownVisible (run evs w)
  = foldl dropdownAfter (isMenuDropdownVisible w) evs
  ∧ tidy (run evs w).
Proof.
  revert w. induction evs as [|ev evs IH]; intros w Hw; simpl; [done|].
  destruct (step_tidy ev w Hw) as [Hv Ht].
  destruct (IH _ Ht) as [Hv' Ht']. by rewrite Hv', Hv.
Qed.

(** The menu behaves as the listener-free description says: after any
    presses, scrolls and button clicks it is open exactly when
    [dropdownAfter], folded over the events from the closed menu, says
    so. *)
Theorem navbar_menu_refines (evs : list Event) :
  isMenuDropdownVisible (run evs mount) = foldl dropdownAfter false evs.
Proof. by destruct (run_tidy evs mount mount_tidy) as [-> _]. Qed.

(** Whatever happened before, the document has exactly one [mousedown]
    listener and the window exactly one [scroll] listener of the bar, the
    pair made by the latest effect run, and that [handleScroll] has
    captured the current state of the menu: listeners neither pile up nor
    go stale. *)
Theorem navbar_listeners_single_and_fresh (evs : list Event) :
  ∃ h, registered (run evs mount) = Some h
       ∧ mousedown (run evs mount) = [h]
       ∧ scroll (run evs mount) = [h]
       ∧ seesVisible h = isMenuDropdownVisible (run evs mount).
Proof. by destruct (run_tidy evs mount mount_tidy) as (_ & _ & H). Qed.

(** Tearing the bar down after any history leaves no listener of it on
    the document or the window, and no cleanup to run. *)
Theorem navbar_unmount_removes_listeners (evs : list Event) :
  mousedown (unmount (run evs mount)) = []
  ∧ scroll (unmount (run evs mount)) = []
  ∧ registered (unmount (run evs mount)) = None.
Proof.
  destruct (run_tidy evs mount mount_tidy)
    as (_ & _ & h & Hreg & Hmd & Hsc & _).
  unfold unmount, runCleanup. rewrite Hreg. simpl.
  by rewrite Hmd, Hsc, removeEventListener_only.
Qed.

End NavbarLaws.

(** ** More about the preview page *)

Section PageExtras.

Lemma commit_store_console w w' :
  commit w = Some w' → store w' = store w ∧ console w' = console w.
Proof.
  unfold commit. destruct (mapM _ _); simpl; [|done]. by intros [= <-].
Qed.

Lemma step_instances_Forall (P : Instance → Prop) ev w w' :
  (∀ st i c, busyIffPending c → P c →
     P (sync st (instanceAfter ev (store w) i c))) →
  pageInvariant w → Forall P (instances w) → step ev w = Some w' →
  Forall P (instances w').
Proof.
  intros HP Hinv Hall Hstep.
  destruct (step_pageInvariant ev w Hinv) as (w1 & Hstep1 & _ & Hafter).
  assert (w1 = w') as -> by congruence.
  apply Forall_lookup_2. intros i c' Hi'.
  assert (is_Some (instances w !! i)) as [c Hi].
  { apply lookup_lt_is_Some. rewrite <- (step_length _ _ _ Hstep).
    by eapply lookup_lt_Some. }
  rewrite (Hafter _ _ Hi) in Hi'. injection Hi' as <-.
  destruct Hinv as (_ & _ & Hbusy & _).
  apply HP.
  - eapply Forall_lookup_1 in Hbusy; [|exact Hi]. done.
  - eapply Forall_lookup_1 in Hall; [|exact Hi]. done.
Qed.

Lemma run_instances_Forall (P : Instance → Prop) evs w w' :
  (∀ ev st st' i c, busyIffPending c → P c →
     P (sync st (instanceAfter ev st' i c))) →
  pageInvariant w → Forall P (instances w) → run evs w = Some w' →
  Forall P (instances w').
Proof.
  intros HP. revert w. induction evs as [|ev evs IH]; intros w Hinv Hall; simpl.
  - by intros [= <-].
  - destruct (step_pageInvariant ev w Hinv) as (w1 & Hstep & Hinv1 & _).
    rewrite Hstep. simpl. apply IH; [done|].
    apply (step_instances_Forall P ev w w1); [|done|done|done].
    intros. by apply HP.
Qed.

Lemma reachable_instances_Forall (P : Instance → Prop) st ets o0 evs w :
  (∀ e d, P (mkInstance e false initialAlert d [])) →
  (∀ ev st st' i c, busyIffPending c → P c →
     P (sync st (instanceAfter ev st' i c))) →
  wellFormed st → mount st ets o0 ≫= run evs = Some w →
  Forall P (instances w).
Proof.
  intros H0 HP Hwf Hw.
  destruct (mount_pageInvariant st ets o0 Hwf) as (w0 & Hm & Hinv0 & _).
  rewrite Hm in Hw. simpl in Hw.
  eapply run_instances_Forall; [exact HP|exact Hinv0| |exact Hw].
  unfold mount in Hm. destruct (mapM _ _) as [cs|] eqn:Hcs; [|done].
  injection Hm as <-. simpl.
  apply mapM_Some_1 in Hcs. clear -Hcs H0.
  induction Hcs as [|e c ets cs He _ IH]; constructor; [|done].
  unfold mountInstance in He.
  destruct (isOverlayVisible st e); simpl in He; [|done].
  injection He as <-. apply H0.
Qed.

Lemma builtAlert_after ev st st' i c :
  busyIffPending c → builtAlert (alert c) →
  builtAlert (alert (sync st (instanceAfter ev st' i c))).
Proof.
  intros Hb Ha. simpl.
  destruct ev as [e|e|j|j outcome|j]; simpl; try done.
  - destruct (decide (j = i)); [|done]. by destruct (_ && _).
  - destruct (decide (j = i)); [|done]. destruct (pending c); [done|].
    unfold handleSendEmail_settle, handleSendEmail_try, builtAlert.
    destruct outcome as [status|error]; [destruct (ok status)|]; simpl; auto.
  - destruct (decide (j = i)); [|done]. simpl.
    unfold builtAlert, closeAlert, initialAlert in *.
    destruct Ha as [->|[->|[->|[->| ->]]]]; simpl; auto.
Qed.

(** On every reachable page an alert that is shown is one of the two
    fixed ones, the success alert with the confirmation text or the error
    alert with the failure text; a neutral alert is the initial one, never
    shown; and a dismissed alert has an empty message. *)
Theorem visible_alert_is_fixed (st : OverlayStore.State)
    (ets : list EmailType) (o0 : string) (evs : list Event) (w : World) :
  wellFormed st → mount st ets o0 ≫= run evs = Some w →
  ∀ c, c ∈ instances w →
    (isVisible (alert c) = true →
     alert c = mkAlert "Email sent successfully!" true SUCCESS
     ∨ alert c = mkAlert "Failed to send email" true ERROR)
    ∧ (type (alert c) = NEUTRAL → alert c = initialAlert)
    ∧ (isVisible (alert c) = false → message (alert c) = "").
Proof.
  intros Hwf Hw c Hc.
  assert (Hall : Forall (λ c, builtAlert (alert c)) (instances w)).
  { eapply reachable_instances_Forall; [| |exact Hwf|exact Hw].
    - intros e d. by left.
    - intros. by apply builtAlert_after. }
  eapply Forall_forall in Hall; [|exact Hc].
  unfold builtAlert, initialAlert in Hall.
  destruct Hall as [->|[->|[->|[->| ->]]]]; simpl;
    (split; [|split]); intros; try done; auto.
Qed.

Lemma visible_alert_is_fixed_witness :
  wellFormed OverlayStore.initialState
  ∧ ∃ w, mount OverlayStore.initialState [ORDER_SHIPPED] ""
           ≫= run [Show ORDER_SHIPPED; ClickSend 0%nat;
                   Settle 0%nat (Responded 503)] = Some w
         ∧ ∀ c, c ∈ instances w →
             (isVisible (alert c) = true →
              alert c = mkAlert "Email sent successfully!" true SUCCESS
              ∨ alert c = mkAlert "Failed to send email" true ERROR)
             ∧ (type (alert c) = NEUTRAL → alert c = initialAlert)
             ∧ (isVisible (alert c) = false → message (alert c) = "").
Proof.
  split; [exact initialState_wellFormed|].
  destruct (page_reachable OverlayStore.initialState [ORDER_SHIPPED] ""
              [Show ORDER_SHIPPED; ClickSend 0%nat;
               Settle 0%nat (Responded 503)] initialState_wellFormed)
    as (w & Hw & _).
  exists w. split; [exact Hw|].
  exact (visible_alert_is_fixed OverlayStore.initialState [ORDER_SHIPPED] ""
           _ w initialState_wellFormed Hw).
Defined.

Lemma reachable_is_invariant st ets o0 evs w :
  wellFormed st → mount st ets o0 ≫= run evs = Some w → pageInvariant w.
Proof.
  intros Hwf Hw.
  destruct (page_reachable st ets o0 evs Hwf) as (w0 & Hw0 & Hinv & _).
  congruence.
Qed.

(** An event changes the component state of the instance it addresses at
    most: on a reachable page every event is handled, and every other
    instance keeps its prop, busy flag, alert and pending request.
    Showing or hiding an overlay addresses no instance, so a send in
    flight survives it. *)
Theorem events_touch_only_their_instance (st : OverlayStore.State)
    (ets : list EmailType) (o0 : string) (evs : list Event) (w : World)
    (ev : Event) :
  wellFormed st → mount st ets o0 ≫= run evs = Some w →
  ∃ w', step ev w = Some w'
        ∧ ∀ i c, instances w !! i = Some c → eventTarget ev ≠ Some i →
            ∃ c', instances w' !! i = Some c'
                  ∧ prop_emailType c' = prop_emailType c
                  ∧ isLoading c' = isLoading c
                  ∧ alert c' = alert c
                  ∧ pending c' = pending c.
Proof.
  intros Hwf Hw.
  pose proof (reachable_is_invariant _ _ _ _ _ Hwf Hw) as Hinv.
  destruct (step_pageInvariant ev w Hinv) as (w' & Hstep & _ & Hafter).
  exists w'. split; [done|]. intros i c Hi Ht.
  eexists. split; [by apply Hafter|].
  assert (instanceAfter ev (store w) i c = c) as ->; [|done].
  destruct ev as [e|e|j|j outcome|j]; simpl in *; try done;
    rewrite decide_False; congruence.
Qed.

Lemma events_touch_only_their_instance_witness :
  wellFormed OverlayStore.initialState
  ∧ ∃ w, mount OverlayStore.initialState [ORDER_CONFIRMED; ORDER_SHIPPED] ""
           ≫= run [Show ORDER_SHIPPED; ClickSend 1%nat] = Some w
         ∧ ∃ w', step (Hide ORDER_SHIPPED) w = Some w'
             ∧ ∀ i c, instances w !! i = Some c →
                 eventTarget (Hide ORDER_SHIPPED) ≠ Some i →
                 ∃ c', instances w' !! i = Some c'
                       ∧ prop_emailType c' = prop_emailType c
                       ∧ isLoading c' = isLoading c
                       ∧ alert c' = alert c
                       ∧ pending c' = pending c.
Proof.
  split; [exact initialState_wellFormed|].
  destruct (page_reachable OverlayStore.initialState
              [ORDER_CONFIRMED; ORDER_SHIPPED] ""
              [Show ORDER_SHIPPED; ClickSend 1%nat] initialState_wellFormed)
    as (w & Hw & _).
  exists w. split; [exact Hw|].
  exact (events_touch_only_their_instance OverlayStore.initialState _ _ _ w
           (Hide ORDER_SHIPPED) initialState_wellFormed Hw).
Defined.

(** *** The console *)

Lemma handleSendEmail_settle_log outcome c console :
  (handleSendEmail_settle outcome c console).2
  = (console ++ option_list (loggedError outcome))%list.
Proof.
  unfold handleSendEmail_settle, handleSendEmail_try, loggedError.
  destruct outcome as [status|error]; [destruct (ok status)|]; simpl;
    by rewrite ?app_nil_r.
Qed.

Lemma step_console ev w w' :
  step ev w = Some w' →
  console w' = console w
  ∨ ∃ i outcome msg,
      ev = Settle i outcome ∧ loggedError outcome = Some msg
      ∧ console w' = (console w ++ [msg])%list.
Proof.
  destruct ev as [e|e|j|j outcome|j]; simpl.
  - destruct (EmailPreviewButton_onClick e (store w)); simpl; [|done].
    intros H. apply commit_store_console in H as [_ ->]. by left.
  - destruct (backButton_onClick e (store w)); simpl; [|done].
    intros H. apply commit_store_console in H as [_ ->]. by left.
  - destruct (instances w !! j) as [cj|]; [|intros [= <-]; by left].
    destruct (isOverlayVisible _ _) as [v|]; simpl; [|done].
    destruct (v && _); [|intros [= <-]; by left].
    intros H. apply commit_store_console in H as [_ ->]. by left.
  - destruct (instances w !! j) as [cj|]; [|intros [= <-]; by left].
    destruct (pending cj); [intros [= <-]; by left|].
    pose proof (handleSendEmail_settle_log outcome cj (console w)) as Hlog.
    destruct (handleSendEmail_settle _ _ _) as [c' console'].
    intros H. apply commit_store_console in H as [_ ->]. simpl in *.
    destruct (loggedError outcome) as [msg|] eqn:Hmsg; simpl in Hlog.
    + right. by exists j, outcome, msg.
    + left. by rewrite Hlog, app_nil_r.
  - destruct (instances w !! j) as [cj|]; [|intros [= <-]; by left].
    intros H. apply commit_store_console in H as [_ ->]. by left.
Qed.

Lemma run_console evs w w' msg :
  run evs w = Some w' → msg ∈ console w' →
  msg ∈ console w
  ∨ ∃ i outcome, Settle i outcome ∈ evs ∧ loggedError outcome = Some msg.
Proof.
  revert w. induction evs as [|ev evs IH]; intros w; simpl.
  - intros [= <-]. by left.
  - destruct (step ev w) as [w1|] eqn:Hstep; simpl; [|done].
    intros Hrun Hmsg.
    destruct (IH _ Hrun Hmsg) as [Hin|(i & outcome & Hev & Hlog)].
    + destruct (step_console _ _ _ Hstep)
        as [Hc|(i & outcome & m & -> & Hlog & Hc)]; rewrite Hc in Hin.
      * by left.
      * apply elem_of_app in Hin as [Hin|Hin]; [by left|].
        apply list_elem_of_singleton in Hin as ->.
        right. exists i, outcome. split; [by left|done].
    + right. exists i, outcome. split; [by right|done].
Qed.

(** The console of the page holds nothing but the errors of failed
    sends: every line is the error of a send in the history that did not
    get a 2xx response (the rejection's message, or the fixed text for
    another status); so a history in which every send got a 2xx response
    leaves the console empty. *)
Theorem console_holds_only_send_failures (st : OverlayStore.State)
    (ets : list EmailType) (o0 : string) (evs : list Event) (w : World) :
  mount st ets o0 ≫= run evs = Some w →
  (∀ msg, msg ∈ console w →
     ∃ i outcome, Settle i outcome ∈ evs ∧ loggedError outcome = Some msg)
  ∧ ((∀ i outcome, Settle i outcome ∈ evs →
        ∃ status, outcome = Responded status ∧ 200 ≤ status ≤ 299) →
     console w = []).
Proof.
  intros Hw.
  assert (Hlines : ∀ msg, msg ∈ console w →
            ∃ i outcome, Settle i outcome ∈ evs
                         ∧ loggedError outcome = Some msg).
  { intros msg Hmsg. unfold mount in Hw.
    destruct (mapM _ _) as [cs|]; simpl in Hw; [|done].
    destruct (run_console _ _ _ _ Hw Hmsg) as [Hin|H]; [|done].
    simpl in Hin. by apply not_elem_of_nil in Hin. }
  split; [done|]. intros Hok.
  destruct (console w) as [|msg rest] eqn:Hc; [done|].
  destruct (Hlines msg) as (i & outcome & Hev & Hlog); [by left|].
  destruct (Hok _ _ Hev) as (status & -> & Hs).
  simpl in Hlog. apply ok_spec in Hs. by rewrite Hs in Hlog.
Qed.

Lemma console_holds_only_send_failures_witness :
  ∃ w, mount OverlayStore.initialState [ORDER_DELIVERED] ""
         ≫= run [Show ORDER_DELIVERED; ClickSend 0%nat;
                 Settle 0%nat (Rejected "NetworkError")] = Some w
       ∧ ∀ msg, msg ∈ console w →
           ∃ i outcome,
             Settle i outcome
               ∈ [Show ORDER_DELIVERED; ClickSend 0%nat;
                  Settle 0%nat (Rejected "NetworkError")]
             ∧ loggedError outcome = Some msg.
Proof.
  destruct (page_reachable OverlayStore.initialState [ORDER_DELIVERED] ""
              [Show ORDER_DELIVERED; ClickSend 0%nat;
               Settle 0%nat (Rejected "NetworkError")]
              initialState_wellFormed)
    as (w & Hw & _).
  exists w. split; [exact Hw|].
  exact (proj1 (console_holds_only_send_failures OverlayStore.initialState
                  _ _ _ w Hw)).
Defined.

(** *** Sends, overlays and the scroll lock together *)

Lemma step_store_instance_event ev w w' j :
  eventTarget ev = Some j → step ev w = Some w' → store w' = store w.
Proof.
  destruct ev as [e|e|k|k outcome|k]; simpl; try done; intros _.
  - destruct (instances w !! k) as [ck|]; [|by intros [= <-]].
    destruct (isOverlayVisible _ _) as [v|]; simpl; [|done].
    destruct (v && _); [|by intros [= <-]].
    intros H. by apply commit_store_console in H as [-> _].
  - destruct (instances w !! k) as [ck|]; [|by intros [= <-]].
    destruct (pending ck); [by intros [= <-]|].
    destruct (handleSendEmail_settle _ _ _) as [c' console'].
    intros H. by apply commit_store_console in H as [-> _].
  - destruct (instances w !! k) as [ck|]; [|by intros [= <-]].
    intros H. by apply commit_store_console in H as [-> _].
Qed.

Lemma invariant_single w c :
  pageInvariant w → instances w = [c] →
  overflow w = scrollLock_effect (depsOf (store w) c).
Proof.
  intros (_ & Hsync & _ & Hlw) Hone. unfold inSync in Hsync.
  rewrite Hone in Hsync. apply Forall_inv in Hsync. simpl in Hsync.
  destruct Hlw as [Hnil|(d & Hd & ->)]; [congruence|].
  rewrite Hone in Hd. simpl in Hd.
  apply list_elem_of_singleton in Hd as ->. by rewrite Hsync.
Qed.

(** Closing the overlay does not cancel a send in flight: on a reachable
    page with a control that is [Submitting], hiding its overlay and then
    letting the request settle, with whatever outcome, is handled; the
    overlay is hidden afterwards, the control is [Idle] with its success
    or error alert shown, and when it is the only instance on the page the
    scroll is disabled under the alert alone. *)
Theorem send_survives_closed_overlay (st : OverlayStore.State)
    (ets : list EmailType) (o0 : string) (evs : list Event) (w : World)
    (i : nat) (c : Instance) (outcome : FetchOutcome) :
  wellFormed st → mount st ets o0 ≫= run evs = Some w →
  instances w !! i = Some c → phase c = Submitting →
  ∃ w', run [Hide (prop_emailType c); Settle i outcome] w = Some w'
        ∧ isOverlayVisible (store w') (prop_emailType c) = Some false
        ∧ ∃ c', instances w' !! i = Some c'
                ∧ phase c' = Idle
                ∧ alert c'
                  = match loggedError outcome with
                    | Some _ => mkAlert "Failed to send email" true ERROR
                    | None => mkAlert "Email sent successfully!" true SUCCESS
                    end
                ∧ (instances w' = [c'] → overflow w' = "hidden").
Proof.
  intros Hwf Hw Hi Hph.
  pose proof (reachable_is_invariant _ _ _ _ _ Hwf Hw) as Hinv.
  pose proof Hinv as (Hwf' & _ & Hbusy & _).
  assert (Hl : isLoading c = true).
  { unfold phase in Hph. by destruct (isLoading c). }
  assert (Hp : pending c = [sendRequest (prop_emailType c)]).
  { eapply Forall_lookup_1 in Hbusy; [|exact Hi].
    unfold busyIffPending in Hbusy. by rewrite Hl in Hbusy. }
  destruct (click_then_render (store w) (prop_emailType c) Hwf')
    as [_ (st1 & Hback & Hvis)].
  destruct (step_pageInvariant (Hide (prop_emailType c)) w Hinv)
    as (w1 & Hstep1 & Hinv1 & Hafter1).
  assert (Hst1 : store w1 = st1).
  { simpl in Hstep1. rewrite Hback in Hstep1. simpl in Hstep1.
    by apply commit_store_console in Hstep1 as [-> _]. }
  pose proof (Hafter1 _ _ Hi) as Hi1. simpl in Hi1.
  destruct (step_pageInvariant (Settle i outcome) w1 Hinv1)
    as (w2 & Hstep2 & Hinv2 & Hafter2).
  assert (Hst2 : store w2 = store w1).
  { by eapply (step_store_instance_event (Settle i outcome)). }
  pose proof (Hafter2 _ _ Hi1) as Hi2. simpl in Hi2.
  rewrite decide_True in Hi2 by done. rewrite Hp in Hi2.
  exists w2. split; [|split].
  - cbn [run]. rewrite Hstep1. cbn [mbind option_bind]. by rewrite Hstep2.
  - by rewrite Hst2, Hst1.
  - eexists. split; [exact Hi2|].
    assert (Halert :
      alert (handleSendEmail_settle outcome (sync (store w1) c) []).1
      = match loggedError outcome with
        | Some _ => mkAlert "Failed to send email" true ERROR
        | None => mkAlert "Email sent successfully!" true SUCCESS
        end).
    { unfold handleSendEmail_settle, handleSendEmail_try, loggedError.
      destruct outcome as [status|error]; [destruct (ok status)|]; done. }
    split; [|split].
    + unfold phase. simpl. by rewrite handleSendEmail_settle_isLoading.
    + simpl. exact Halert.
    + intros Hone. rewrite (invariant_single _ _ Hinv2 Hone).
      apply scrollLock_effect_hidden. unfold anyVisible, depsOf. simpl.
      rewrite Halert. destruct (loggedError outcome); simpl;
        apply orb_true_r.
Qed.

Lemma send_survives_closed_overlay_witness :
  wellFormed OverlayStore.initialState
  ∧ ∃ w c, mount OverlayStore.initialState [ORDER_SHIPPED] ""
             ≫= run [Show ORDER_SHIPPED; ClickSend 0%nat] = Some w
           ∧ instances w !! 0%nat = Some c
           ∧ phase c = Submitting
           ∧ ∃ w', run [Hide (prop_emailType c);
                        Settle 0%nat (Responded 500)] w = Some w'
                   ∧ isOverlayVisible (store w') (prop_emailType c)
                     = Some false.
Proof.
  split; [exact initialState_wellFormed|].
  destruct (mount OverlayStore.initialState [ORDER_SHIPPED] ""
              ≫= run [Show ORDER_SHIPPED; ClickSend 0%nat])
    as [w|] eqn:Hw; [|by vm_compute in Hw].
  destruct (instances w !! 0%nat) as [c|] eqn:Hc.
  2:{ vm_compute in Hw. injection Hw as <-. by vm_compute in Hc. }
  assert (Hph : phase c = Submitting).
  { vm_compute in Hw. injection Hw as <-. vm_compute in Hc.
    by injection Hc as <-. }
  exists w, c. split; [reflexivity|]. split; [exact Hc|]. split; [exact Hph|].
  destruct (send_survives_closed_overlay OverlayStore.initialState
              [ORDER_SHIPPED] "" [Show ORDER_SHIPPED; ClickSend 0%nat]
              w 0%nat c (Responded 500) initialState_wellFormed Hw Hc Hph)
    as (w' & Hrun & Hvis & _).
  exists w'. split; [exact Hrun|exact Hvis].
Defined.

(** Mounting takes over the overflow style: whatever the document had
    before, after the overlays of a page are mounted the style is the one
    written by the last of them from its own overlay flag alone. *)
Theorem mount_overwrites_overflow (st : OverlayStore.State)
    (ets : list EmailType) (e : EmailType) (o0 : string) :
  wellFormed st →
  ∃ w v, mount st (ets ++ [e]) o0 = Some w
         ∧ isOverlayVisible st e = Some v
         ∧ overflow w = if v then "hidden" else "visible".
Proof.
  intros Hwf. unfold mount.
  rewrite (mapM_total _
             (λ e, mkInstance e false initialAlert (overlayFlag st e, false) [])).
  2:{ intros e' _. unfold mountInstance.
      by rewrite (wellFormed_isOverlayVisible _ _ Hwf). }
  cbn [mbind option_bind]. eexists. exists (overlayFlag st e).
  split; [reflexivity|].
  split; [by apply wellFormed_isOverlayVisible|]. cbn [overflow].
  rewrite fmap_app. change ((?f <$> [e])) with [f e]. rewrite foldl_snoc.
  unfold scrollLock_effect. simpl. by rewrite orb_false_r.
Qed.

Lemma mount_overwrites_overflow_witness :
  wellFormed OverlayStore.initialState
  ∧ ∃ w v, mount OverlayStore.initialState ([ORDER_CONFIRMED] ++ [ORDER_SHIPPED])
             "hidden" = Some w
           ∧ isOverlayVisible OverlayStore.initialState ORDER_SHIPPED = Some v
           ∧ overflow w = if v then "hidden" else "visible".
Proof.
  split; [exact initialState_wellFormed|].
  exact (mount_overwrites_overflow OverlayStore.initialState [ORDER_CONFIRMED]
           ORDER_SHIPPED "hidden" initialState_wellFormed).
Defined.

(** The four tables of the component give different email types
    different entries: no two previews share a registry key, a label, a
    subject or a title. *)
Theorem email_tables_injective (e e' : EmailType) :
  (overlayNameKeys e = overlayNameKeys e' ↔ e = e')
  ∧ (emailLabels e = emailLabels e' ↔ e = e')
  ∧ (emailSubjects e = emailSubjects e' ↔ e = e')
  ∧ (overlayTitles e = overlayTitles e' ↔ e = e').
Proof. repeat split; try (by intros ->); by destruct e, e'. Qed.

End PageExtras.

(** ** The order details page *)

Section OrderDetailsLaws.
Import OrderDetailsPage.

Variable capitalizeFirstLetter : string → string.
Variable formatDate : string → Outcome string.
Variable Items : Type.
Variable renderItems : gmap string JsValue → Outcome Items.

Lemma ok_false (status : Z) : ¬ 200 ≤ status ≤ 299 → ok status = false.
Proof. intros H. rewrite <- ok_spec in H. by destruct (ok status). Qed.

(** When the payment route answers with a status outside 200..299, the
    page is the error message and one line goes to the console; the
    document database is not asked, so neither its state nor the body of
    the answer can make the page fail. *)
Theorem OrderDetails_error_response (response : Response)
    (database : Firestore) (console : list string) :
  ¬ 200 ≤ response_status response ≤ 299 →
  OrderDetails capitalizeFirstLetter formatDate Items renderItems
    (Resolved response) database console
  = (Resolved (ErrorPage "Error fetching order details"),
     (console ++ ["Failed to fetch order details"])%list).
Proof. intros H. unfold OrderDetails. by rewrite (ok_false _ H). Qed.

(** The details are shown only for an accepted answer whose first
    purchase unit has a first capture and whose date could be formatted:
    then the page shows that capture's id, links to the provider's
    transaction page for it, shows the unit's amount after a dollar sign,
    and nothing was logged. *)
Theorem OrderDetails_rendered_has_capture (fetched : Outcome Response)
    (database : Firestore) (console console' : list string)
    (view : View Items) :
  OrderDetails capitalizeFirstLetter formatDate Items renderItems
    fetched database console
  = (Resolved (DetailsPage view), console') →
  console' = console
  ∧ ∃ response unit units capture rest,
      fetched = Resolved response
      ∧ 200 ≤ response_status response ≤ 299
      ∧ purchase_units (response_json response) = unit :: units
      ∧ captures unit = capture :: rest
      ∧ formatDate (create_time capture) = Resolved (view_purchased view)
      ∧ view_captureId view = capture_id capture
      ∧ view_paypalUrl view = PAYPAL_BASE_URL ++ capture_id capture
      ∧ view_total view = "$" ++ amount_value unit.
Proof.
  unfold OrderDetails, formatOrderPlacedDate, firstCapture.
  destruct fetched as [response|error]; [|done].
  destruct (ok (response_status response)) eqn:Hok; simpl; [|done].
  apply ok_spec in Hok.
  destruct (getOrderById _ _) as [order|error]; [|done].
  destruct (purchase_units (response_json response)) as [|unit units] eqn:Hu;
    [done|].
  destruct (captures unit) as [|capture rest] eqn:Hc; [done|].
  destruct (formatDate (create_time capture)) as [d|error] eqn:Hd; [|done].
  destruct (itemsSection _ _ _) as [items|error]; [|done].
  intros [= <- <-]. split; [done|].
  exists response, unit, units, capture, rest. by rewrite Hu.
Qed.

(** An order the document database does not know does not stop the page:
    with an accepted answer, an order id that is empty or has no slash
    and whose document is read and is not there, a first capture and a
    date that formats, the details are shown without an items section,
    and the items are never rendered. *)
Theorem OrderDetails_missing_order_renders (response : Response)
    (database : Firestore) (console : list string) (unit : PurchaseUnit)
    (units : list PurchaseUnit) (capture : Capture) (rest : list Capture)
    (d : string) :
  200 ≤ response_status response ≤ 299 →
  order_id (response_json response) = ""
  ∨ hasSlash (order_id (response_json response)) = false
    ∧ readDocument database ["orders"; order_id (response_json response)]
      = Resolved None →
  purchase_units (response_json response) = unit :: units →
  captures unit = capture :: rest →
  formatDate (create_time capture) = Resolved d →
  OrderDetails capitalizeFirstLetter formatDate Items renderItems
    (Resolved response) database console
  = (Resolved
       (DetailsPage
          (detailsView capitalizeFirstLetter Items (response_json response)
             unit capture d None)),
     console).
Proof.
  intros Hok Hnone Hu Hc Hd. apply ok_spec in Hok.
  unfold OrderDetails, formatOrderPlacedDate, firstCapture.
  rewrite Hok. simpl.
  assert (getOrderById database (order_id (response_json response))
          = Resolved None) as ->.
  { destruct Hnone as [->|[Hs Hread]]; [done|].
    destruct (decide (order_id (response_json response) = "")) as [->|Hid];
      [done|].
    by rewrite getOrderById_read, Hread. }
  by rewrite Hu, Hc, Hd.
Qed.

(** How the page fails after an accepted answer. An order id the client
    library refuses as a document reference makes it fail with the
    library's error before anything is read; for a non-empty id without a
    slash, a read that is rejected makes it fail with the read's error;
    and whenever the order lookup resolved, an order without a purchase
    unit, or whose first unit has no capture, makes it fail with a
    [TypeError]. Nothing is logged in any of these cases. *)
Theorem OrderDetails_failures (response : Response) (database : Firestore)
    (console : list string) :
  200 ≤ response_status response ≤ 299 →
  (∀ error,
     order_id (response_json response) ≠ "" →
     doc "orders" [order_id (response_json response)] = Threw error →
     OrderDetails capitalizeFirstLetter formatDate Items renderItems
       (Resolved response) database console
     = (Threw error, console))
  ∧ (∀ error,
       order_id (response_json response) ≠ "" →
       hasSlash (order_id (response_json response)) = false →
       readDocument database ["orders"; order_id (response_json response)]
       = Threw error →
       OrderDetails capitalizeFirstLetter formatDate Items renderItems
         (Resolved response) database console
       = (Threw error, console))
  ∧ (∀ order,
       getOrderById database (order_id (response_json response))
       = Resolved order →
       (purchase_units (response_json response) = []
        ∨ ∃ unit units, purchase_units (response_json response) = unit :: units
                        ∧ captures unit = []) →
       OrderDetails capitalizeFirstLetter formatDate Items renderItems
         (Resolved response) database console
       = (Threw "TypeError", console)).
Proof.
  intros Hok. apply ok_spec in Hok.
  unfold OrderDetails, formatOrderPlacedDate, firstCapture.
  rewrite Hok. simpl. split; [|split].
  - intros error Hid Hdoc. unfold getOrderById.
    by rewrite decide_False, Hdoc.
  - intros error Hid Hs Hread. by rewrite getOrderById_read, Hread.
  - intros order -> Hcap.
    destruct Hcap as [->|(unit & units & -> & ->)]; done.
Qed.

End OrderDetailsLaws.

Section OrderDetailsWitnesses.
Import OrderDetailsPage.

Lemma OrderDetails_error_response_witness :
  ¬ 200 ≤ response_status (mkResponse 404 exampleOrder) ≤ 299
  ∧ OrderDetails (λ s, s) Resolved unit (λ _, Threw "unused")
      (Resolved (mkResponse 404 exampleOrder)) (Unreachable "offline") []
    = (Resolved (ErrorPage "Error fetching order details"),
       ["Failed to fetch order details"]).
Proof.
  assert (H : ¬ 200 ≤ response_status (mkResponse 404 exampleOrder) ≤ 299)
    by (simpl; lia).
  split; [exact H|].
  exact (OrderDetails_error_response (λ s, s) Resolved unit
           (λ _, Threw "unused") (mkResponse 404 exampleOrder)
           (Unreachable "offline") [] H).
Defined.

Lemma OrderDetails_rendered_has_capture_witness :
  let view :=
    detailsView (λ s, s) unit exampleOrder exampleUnit exampleCapture
      "2024-11-06T15:45:00Z" None in
  OrderDetails (λ s, s) Resolved unit (λ _, Resolved tt)
    (Resolved (mkResponse 200 exampleOrder)) (Online ∅) []
  = (Resolved (DetailsPage view), [])
  ∧ ∃ response unit units capture rest,
      Resolved (mkResponse 200 exampleOrder) = Resolved response
      ∧ 200 ≤ response_status response ≤ 299
      ∧ purchase_units (response_json response) = unit :: units
      ∧ captures unit = capture :: rest
      ∧ Resolved (create_time capture) = Resolved (view_purchased view)
      ∧ view_captureId view = capture_id capture
      ∧ view_paypalUrl view = PAYPAL_BASE_URL ++ capture_id capture
      ∧ view_total view = "$" ++ amount_value unit.
Proof.
  assert (H : OrderDetails (λ s, s) Resolved unit (λ _, Resolved tt)
                (Resolved (mkResponse 200 exampleOrder)) (Online ∅) []
              = (Resolved
                   (DetailsPage
                      (detailsView (λ s, s) unit exampleOrder exampleUnit
                         exampleCapture "2024-11-06T15:45:00Z" None)), []))
    by reflexivity.
  split; [exact H|].
  exact (proj2 (OrderDetails_rendered_has_capture (λ s, s) Resolved unit
                  (λ _, Resolved tt) _ _ _ _ _ H)).
Defined.

Lemma OrderDetails_missing_order_renders_witness :
  200 ≤ response_status (mkResponse 200 exampleOrder) ≤ 299
  ∧ (order_id (response_json (mkResponse 200 exampleOrder)) = ""
     ∨ hasSlash (order_id (response_json (mkResponse 200 exampleOrder)))
       = false
       ∧ readDocument (Online ∅)
           ["orders"; order_id (response_json (mkResponse 200 exampleOrder))]
         = Resolved None)
  ∧ OrderDetails (λ s, s) Resolved unit (λ _, Threw "unused")
      (Resolved (mkResponse 200 exampleOrder)) (Online ∅) []
    = (Resolved
         (DetailsPage
            (detailsView (λ s, s) unit exampleOrder exampleUnit exampleCapture
               "2024-11-06T15:45:00Z" None)), []).
Proof.
  assert (H1 : 200 ≤ response_status (mkResponse 200 exampleOrder) ≤ 299)
    by (simpl; lia).
  assert (H2 : order_id (response_json (mkResponse 200 exampleOrder)) = ""
               ∨ hasSlash
                   (order_id (response_json (mkResponse 200 exampleOrder)))
                 = false
                 ∧ readDocument (Online ∅)
                     ["orders";
                      order_id (response_json (mkResponse 200 exampleOrder))]
                   = Resolved None)
    by (right; split; reflexivity).
  split; [exact H1|]. split; [exact H2|].
  exact (OrderDetails_missing_order_renders (λ s, s) Resolved unit
           (λ _, Threw "unused") (mkResponse 200 exampleOrder) (Online ∅) []
           exampleUnit [] exampleCapture [] "2024-11-06T15:45:00Z"
           H1 H2 eq_refl eq_refl eq_refl).
Defined.

Lemma OrderDetails_failures_witness :
  200 ≤ response_status (mkResponse 200 exampleOrderNoCapture) ≤ 299
  ∧ getOrderById (Online ∅)
      (order_id (response_json (mkResponse 200 exampleOrderNoCapture)))
    = Resolved None
  ∧ OrderDetails (λ s, s) Resolved unit (λ _, Resolved tt)
      (Resolved (mkResponse 200 exampleOrderNoCapture)) (Online ∅) []
    = (Threw "TypeError", []).
Proof.
  assert (H : 200 ≤ response_status (mkResponse 200 exampleOrderNoCapture)
              ≤ 299) by (simpl; lia).
  assert (Hlookup :
    getOrderById (Online ∅)
      (order_id (response_json (mkResponse 200 exampleOrderNoCapture)))
    = Resolved None) by reflexivity.
  split; [exact H|]. split; [exact Hlookup|].
  apply (proj2 (proj2 (OrderDetails_failures (λ s, s) Resolved unit
                         (λ _, Resolved tt)
                         (mkResponse 200 exampleOrderNoCapture)
                         (Online ∅) [] H)) None Hlookup).
  right. eexists _, _. split; reflexivity.
Defined.

(** *** Labels and separators *)

Lemma eqb_empty (s : string) : String.eqb s "" = true ↔ s = "".
Proof. apply String.eqb_eq. Qed.

(** The variant label of a product: colour and size joined by a slash
    when both are given, the one that is given when only one is, and
    empty exactly when neither is. *)
Theorem variantLabel_cases (color size : string) :
  (color ≠ "" ∧ size ≠ "" → variantLabel color size = color ++ " / " ++ size)
  ∧ (size = "" → variantLabel color size = color)
  ∧ (color = "" → variantLabel color size = size)
  ∧ (variantLabel color size = "" ↔ color = "" ∧ size = "").
Proof.
  unfold variantLabel.
  destruct (String.eqb_spec color "") as [->|Hc];
    destruct (String.eqb_spec size "") as [->|Hs]; simpl.
  - intuition congruence.
  - intuition congruence.
  - intuition congruence.
  - assert (color +:+ " / " +:+ size ≠ "") by (by destruct color).
    intuition congruence.
Qed.

Lemma nameSpans_shifted (k total : nat) (names : list string) :
  total = (k + length names)%nat →
  concat (imap (λ index name,
                  if (Z.of_nat (k + index) <? Z.of_nat total - 1)
                  then [Name name; Bullet] else [Name name]) names)
  = separated (Name <$> names).
Proof.
  revert k. induction names as [|name names IH]; intros k Htotal; [done|].
  rewrite imap_cons. cbn [length] in Htotal. cbn [concat].
  rewrite (imap_ext _ (λ index name,
              if (Z.of_nat (S k + index) <? Z.of_nat total - 1)
              then [Name name; Bullet] else [Name name])).
  2:{ intros i x _. unfold compose.
      by replace (k + S i)%nat with (S k + i)%nat by lia. }
  rewrite IH by lia.
  destruct names as [|name' names]; cbn [length] in Htotal.
  - rewrite (proj2 (Z.ltb_ge _ _)) by lia. done.
  - rewrite (proj2 (Z.ltb_lt _ _)) by lia. done.
Qed.

(** The product names of an upsell are shown with a bullet between
    neighbours and nowhere else: none before the first name, none after
    the last, none for an empty list; so [n] names carry [n - 1]
    bullets. *)
Theorem nameSpans_separated (names : list string) :
  concat (nameSpans names) = separated (Name <$> names)
  ∧ length (filter (λ span, span = Bullet) (concat (nameSpans names)))
    = (length names - 1)%nat.
Proof.
  assert (H : concat (nameSpans names) = separated (Name <$> names)).
  { unfold nameSpans. by apply (nameSpans_shifted 0). }
  split; [done|]. rewrite H. clear H.
  induction names as [|name names IH]; [done|].
  destruct names as [|name' names]; [done|].
  cbn [fmap list_fmap separated] in *.
  rewrite filter_cons_False by done. rewrite filter_cons_True by done.
  cbn [length]. rewrite IH. simpl. lia.
Qed.

End OrderDetailsWitnesses.
